(** * Finite automata: word acceptance and subset construction

    A shallow embedding of [src/automata.py]: the loader [load_automata],
    the acceptance engine [process] and the converter [convert_to_dfa]
    together with the helpers nested in it ([handle_closure],
    [find_transitions], [epsilon_closure], [state_to_str]).

    Modelling conventions.
    - A Python [str] is the [string] of the bytes of its UTF-8 encoding;
      iterating over a word yields its characters (code points), each of
      them the string of its own bytes ([chars]).  Comparing two strings
      byte by byte orders them as Python does, code point by code point.
    - A Python [set] of state names is a [gset string].  Wherever the source
      iterates over a set, the model takes the enumeration as a list
      (the [_from] functions) and the set-level function instantiates it with
      [elements]; the lemmas named [*_enum] show that the enumeration
      order is irrelevant.
    - A Python list that is only used through [append]/[pop] (the stacks)
      is kept with its top, the end of the Python list, at the head.
    - A [while] loop is a function with fuel that returns [None] when the
      fuel runs out; the top-level functions supply a fuel computed from
      their input, and the termination theorems show that it is enough. *)

From Stdlib Require Import String Ascii.
From stdpp Require Import gmap strings list sorting.

Set Warnings "-clear-no-such-hyp".

Open Scope string_scope.
Open Scope list_scope.
Open Scope nat_scope.

(** ** Data model *)

(** A transition rule [(origin, sym, dest)]. *)
Definition transition_rule : Type := string * string * string.

(** The 5-tuple [(states, alphabet, delta, initial_state, final_states)]. *)
Record automaton : Type := Automaton {
  states : list string;
  alphabet : list string;
  delta : list transition_rule;
  initial_state : string;
  final_states : list string
}.

(** The three results of [process]. *)
Inductive verdict : Type := ACEITA | REJEITA | INVALIDA.

Global Instance verdict_eq_dec : EqDecision verdict.
Proof. solve_decision. Defined.

(** The symbol of the empty transition. *)
Definition epsilon : string := "&".

(** ** Epsilon closures *)

(** One turn of [for (origin, sym, dest) in delta] inside the closure loops:
    [if origin == current and sym == '&' and dest not in closure] then add
    [dest] to the closure and push it. *)
Definition closure_scan (current : string)
    (st : gset string * list string) (t : transition_rule)
    : gset string * list string :=
  let '(closure, stack) := st in
  let '(origin, sym, dest) := t in
  if bool_decide (origin = current) && bool_decide (sym = epsilon)
     && bool_decide (dest ∉ closure)
  then ({[dest]} ∪ closure, dest :: stack)
  else (closure, stack).

(** [while stack: current = stack.pop(); for ... in delta: ...]. *)
Fixpoint closure_loop (fuel : nat) (dl : list transition_rule)
    (closure : gset string) (stack : list string) : option (gset string) :=
  match fuel with
  | O => None
  | S fuel' =>
    match stack with
    | [] => Some closure
    | current :: rest =>
      let '(closure', stack') :=
        fold_left (closure_scan current) dl (closure, rest) in
      closure_loop fuel' dl closure' stack'
    end
  end.

(** Every push adds a destination of [delta] that was not in the closure
    yet, so the loop runs at most [length stack + length delta] times. *)
Definition closure_fuel (dl : list transition_rule) (stack : list string)
    : nat :=
  S (length stack + length dl).

(** [handle_closure(state, delta)]: [closure = {state}; stack = [state]]. *)
Definition handle_closure (state : string) (dl : list transition_rule)
    : option (gset string) :=
  closure_loop (closure_fuel dl [state]) dl {[state]} [state].

(** [epsilon_closure(states)] with [list(states)] enumerating the set as
    [enum] (the last element of the Python list is popped first). *)
Definition epsilon_closure_from (dl : list transition_rule)
    (enum : list string) : option (gset string) :=
  closure_loop (closure_fuel dl enum) dl (list_to_set enum) (reverse enum).

Definition epsilon_closure (dl : list transition_rule) (sts : gset string)
    : option (gset string) :=
  epsilon_closure_from dl (elements sts).

(** The closure as a total function: [epsilon_closure] always returns it
    (lemma [epsilon_closure_eclose]). *)
Definition eclose (dl : list transition_rule) (sts : gset string)
    : gset string :=
  default ∅ (epsilon_closure dl sts).

(** ** Reachable sets *)

(** The inner loop of [find_transitions] for one [state]. *)
Definition find_scan (state symbol : string) (result : gset string)
    (t : transition_rule) : gset string :=
  let '(origin, sym, dest) := t in
  if bool_decide (origin = state) && bool_decide (sym = symbol)
  then {[dest]} ∪ result
  else result.

Definition find_transitions_from (dl : list transition_rule)
    (enum : list string) (symbol : string) : gset string :=
  fold_left (λ result state, fold_left (find_scan state symbol) dl result)
            enum ∅.

Definition find_transitions (dl : list transition_rule)
    (sts : gset string) (symbol : string) : gset string :=
  find_transitions_from dl (elements sts) symbol.

(** The state set the converter moves to from [sts] on [symbol]. *)
Definition next_set (dl : list transition_rule) (sts : gset string)
    (symbol : string) : gset string :=
  eclose dl (find_transitions dl sts symbol).

(** ** Naming of state sets *)

(** Python compares strings character by character. *)
Definition str_le (s1 s2 : string) : Prop := String.leb s1 s2 = true.

Global Instance str_le_dec s1 s2 : Decision (str_le s1 s2).
Proof. unfold str_le. apply _. Defined.

Definition sorted (l : list string) : list string := merge_sort str_le l.

(** [','.join(sorted(state_set))]. *)
Definition state_to_str_from (enum : list string) : string :=
  String.concat "," (sorted enum).

Definition state_to_str (state_set : gset string) : string :=
  state_to_str_from (elements state_set).

(** ** Conversion to a deterministic automaton *)

(** [any(state in final_states for state in state_set)]. *)
Definition has_final_from (finals : list string) (enum : list string)
    : bool :=
  existsb (λ state, bool_decide (state ∈ finals)) enum.

Definition has_final (finals : list string) (state_set : gset string)
    : bool :=
  has_final_from finals (elements state_set).

(** The three lists the main loop works on: [queue] (top at the head),
    [visited] and [new_delta] (both in the order of the Python lists). *)
Definition conv_state : Type :=
  list (gset string) * list (gset string) * list transition_rule.

(** The body of [for symbol in alphabet]. *)
Definition expand_symbol (dl : list transition_rule)
    (current_states : gset string) (st : conv_state) (symbol : string)
    : option conv_state :=
  let '(queue, visited, new_delta) := st in
  next_states ← epsilon_closure dl (find_transitions dl current_states symbol);
  if bool_decide (next_states ≠ ∅) then
    let new_delta' :=
      new_delta ++ [(state_to_str current_states, symbol,
                     state_to_str next_states)] in
    if bool_decide (next_states ∉ visited)
    then Some (next_states :: queue, visited ++ [next_states], new_delta')
    else Some (queue, visited, new_delta')
  else Some st.

Fixpoint expand_symbols (dl : list transition_rule)
    (current_states : gset string) (symbols : list string) (st : conv_state)
    : option conv_state :=
  match symbols with
  | [] => Some st
  | symbol :: symbols' =>
    st' ← expand_symbol dl current_states st symbol;
    expand_symbols dl current_states symbols' st'
  end.

(** [while queue: current_states = queue.pop();
    visited.append(current_states); for symbol in alphabet: ...].
    The result is the final [(visited, new_delta)]. *)
Fixpoint convert_loop (fuel : nat) (dl : list transition_rule)
    (symbols : list string) (st : conv_state)
    : option (list (gset string) * list transition_rule) :=
  match fuel with
  | O => None
  | S fuel' =>
    let '(queue, visited, new_delta) := st in
    match queue with
    | [] => Some (visited, new_delta)
    | current_states :: queue' =>
      st' ← expand_symbols dl current_states symbols
              (queue', visited ++ [current_states], new_delta);
      convert_loop fuel' dl symbols st'
    end
  end.

(** Every state set met by the loop is a set of destinations of [delta],
    or the closure of the initial state; there are at most
    [2 ^ S (length delta)] of them. *)
Definition convert_fuel (dl : list transition_rule) : nat :=
  2 ^ S (length dl) + 2.

(** The final lists of the main loop of [convert_to_dfa]. *)
Definition convert_explore (a : automaton)
    : option (gset string * list (gset string) * list transition_rule) :=
  new_initial_state ← epsilon_closure (delta a) {[initial_state a]};
  '(visited, new_delta) ←
    convert_loop (convert_fuel (delta a)) (delta a) (alphabet a)
                 ([new_initial_state], [], []);
  Some (new_initial_state, visited, new_delta).

Definition convert_to_dfa (a : automaton) : option automaton :=
  '(new_initial_state, visited, new_delta) ← convert_explore a;
  let new_final_states :=
    state_to_str <$> filter (λ state_set, has_final (final_states a) state_set)
                            visited in
  let new_states := state_to_str <$> visited in
  Some (Automaton new_states (alphabet a) new_delta
                  (state_to_str new_initial_state) new_final_states).

(** The rules the converter emits for the set [sts] and the symbols
    [symbols]: one per symbol with a non-empty successor. *)
Definition edges_of (dl : list transition_rule) (sts : gset string)
    (symbols : list string) : list transition_rule :=
  (λ symbol, (state_to_str sts, symbol,
              state_to_str (next_set dl sts symbol)))
    <$> filter (λ symbol, next_set dl sts symbol ≠ ∅) symbols.

(** The set [V] has been expanded: its successors are in [D] and its rules
    in [nd]. *)
Definition expanded (dl : list transition_rule) (alph : list string)
    (D : list (gset string)) (nd : list transition_rule) (V : gset string)
    : Prop :=
  ∀ symbol, symbol ∈ alph → next_set dl V symbol ≠ ∅ →
    next_set dl V symbol ∈ D
    ∧ (state_to_str V, symbol, state_to_str (next_set dl V symbol)) ∈ nd.

(** The rule [e] is the rule of a set of [D] on a symbol of the alphabet. *)
Definition edge_ok (dl : list transition_rule) (alph : list string)
    (D : list (gset string)) (e : transition_rule) : Prop :=
  ∃ V symbol, V ∈ D ∧ symbol ∈ alph ∧ next_set dl V symbol ≠ ∅
    ∧ e = (state_to_str V, symbol, state_to_str (next_set dl V symbol)).

(** The names the converter can meet: the initial state and the
    destinations of the rules. *)
Definition universe (a : automaton) : gset string :=
  {[initial_state a]} ∪ list_to_set ((delta a).*2).

(** The first set of the exploration. *)
Definition start_set (a : automaton) : gset string :=
  eclose (delta a) {[initial_state a]}.

(** The subset construction proper: the set of states the automaton can
    be in after the symbols [w], from the states [sts]. *)
Fixpoint reach_set (dl : list transition_rule) (sts : gset string)
    (w : list string) : gset string :=
  match w with
  | [] => sts
  | c :: w' => reach_set dl (next_set dl sts c) w'
  end.

(** The same walk, stopping in front of the first symbol without a
    successor. *)
Fixpoint follow (dl : list transition_rule) (sts : gset string)
    (w : list string) : gset string :=
  match w with
  | [] => sts
  | c :: w' =>
    if decide (next_set dl sts c = ∅) then sts
    else follow dl (next_set dl sts c) w'
  end.

(** All the sets of names taken from a list. *)
Fixpoint subsets_of (l : list string) : list (gset string) :=
  match l with
  | [] => [∅]
  | x :: l' => subsets_of l' ++ (({[x]} ∪.) <$> subsets_of l')
  end.

(** ** Acceptance *)

(** A byte [10xxxxxx] continues the character begun before it. *)
Definition is_continuation (c : ascii) : bool :=
  let n := nat_of_ascii c in
  (128 <=? n) && (n <=? 191).

(** The string goes on with a continuation byte. *)
Definition continues (s : string) : bool :=
  match s with
  | String c _ => is_continuation c
  | EmptyString => false
  end.

(** [for char in word]: the characters of a word, each a string: a byte
    and the continuation bytes that follow it. *)
Fixpoint chars (word : string) : list string :=
  match word with
  | EmptyString => []
  | String c word' =>
    match chars word' with
    | char :: rest =>
      if continues word' then String c char :: rest
      else String c EmptyString :: char :: rest
    | [] => [String c EmptyString]
    end
  end.

(** A byte followed by continuation bytes only. *)
Definition one_char (char : string) : Prop :=
  match char with
  | String _ k => forallb is_continuation (list_ascii_of_string k) = true
  | EmptyString => False
  end.

(** A string that begins with a byte that is not a continuation byte. *)
Definition starts_char (char : string) : Prop :=
  match char with
  | String c _ => is_continuation c = false
  | EmptyString => False
  end.

(** [all(char in alphabet for char in word)]. *)
Definition is_valid_word (alph : list string) (word : string) : bool :=
  forallb (λ char, bool_decide (char ∈ alph)) (chars word).

(** The first rule of [delta] for [(state, symbol)]; [None] without one. *)
Fixpoint transition (dl : list transition_rule) (state symbol : string)
    : option string :=
  match dl with
  | [] => None
  | (origin, sym, dest) :: dl' =>
    if bool_decide (origin = state) && bool_decide (sym = symbol)
    then Some dest
    else transition dl' state symbol
  end.

(** Python's truth value of the result of [transition]: [None] and the empty
    string are false. *)
Definition truthy (next_state : option string) : bool :=
  match next_state with
  | None => false
  | Some EmptyString => false
  | Some _ => true
  end.

(** [for symbol in word: ... else: break], from [current_state]. *)
Fixpoint walk (dl : list transition_rule) (current_state : string)
    (symbols : list string) : string :=
  match symbols with
  | [] => current_state
  | symbol :: symbols' =>
    let next_state := transition dl current_state symbol in
    if truthy next_state
    then walk dl (default EmptyString next_state) symbols'
    else current_state
  end.

(** The body of [for word in words]: the value stored at [results[word]]. *)
Definition classify (a : automaton) (word : string) : verdict :=
  if negb (is_valid_word (alphabet a) word) then INVALIDA
  else
    let current_state := walk (delta a) (initial_state a) (chars word) in
    if bool_decide (current_state ∈ final_states a) then ACEITA else REJEITA.

Definition process (a : automaton) (words : list string)
    : gmap string verdict :=
  fold_left (λ results word, <[word := classify a word]> results) words ∅.

(** The walk in the words of the specification: at each symbol follow the
    first rule of the list whose origin is the current state and whose
    symbol is the one read, and stop in front of a symbol without such a
    rule. *)
Definition first_rule (dl : list transition_rule) (state symbol : string)
    : option transition_rule :=
  find (λ t : transition_rule,
          bool_decide (t.1.1 = state) && bool_decide (t.1.2 = symbol)) dl.

Fixpoint first_match_walk (dl : list transition_rule) (state : string)
    (symbols : list string) : string :=
  match symbols with
  | [] => state
  | symbol :: symbols' =>
    match first_rule dl state symbol with
    | Some t => first_match_walk dl t.2 symbols'
    | None => state
    end
  end.

(** The verdict the specification gives to a word over the alphabet. *)
Definition first_match_verdict (a : automaton) (word : string) : verdict :=
  if bool_decide (first_match_walk (delta a) (initial_state a) (chars word)
                  ∈ final_states a)
  then ACEITA else REJEITA.

(** ** Loading a textual description *)

(** The errors raised by [load_automata], in the order of the source. *)
Inductive load_error : Type :=
  | InsufficientLines
  | InvalidFinalState
  | InvalidTransition (line : string)
  | InvalidTransitionState (line : string)
  | InvalidTransitionSymbol (line : string)
  | InvalidInitialState.

(** The string of the given bytes. *)
Definition utf8 (bytes : list nat) : string :=
  string_of_list_ascii (ascii_of_nat <$> bytes).

(** The characters [str.strip] and [str.split] treat as white space, those
    for which [str.isspace] holds: U+0009 to U+000D, U+001C to U+0020,
    U+0085, U+00A0, U+1680, U+2000 to U+200A, U+2028, U+2029, U+202F,
    U+205F and U+3000. *)
Definition white_space : list string :=
  utf8 <$> [[9]; [10]; [11]; [12]; [13]; [28]; [29]; [30]; [31]; [32];
            [194; 133]; [194; 160]; [225; 154; 128];
            [226; 128; 128]; [226; 128; 129]; [226; 128; 130];
            [226; 128; 131]; [226; 128; 132]; [226; 128; 133];
            [226; 128; 134]; [226; 128; 135]; [226; 128; 136];
            [226; 128; 137]; [226; 128; 138];
            [226; 128; 168]; [226; 128; 169]; [226; 128; 175];
            [226; 129; 159]; [227; 128; 128]].

Definition is_space (char : string) : bool :=
  bool_decide (char ∈ white_space).

(** Drops the white space at the head of a list of characters. *)
Fixpoint lstrip (cs : list string) : list string :=
  match cs with
  | char :: cs' => if is_space char then lstrip cs' else cs
  | [] => []
  end.

(** [line.strip()]. *)
Definition strip (s : string) : string :=
  String.concat EmptyString
    (reverse (lstrip (reverse (lstrip (chars s))))).

(** [str.split()] over the characters [cs], with [tok] the token being
    read. *)
Fixpoint split_from (tok : string) (cs : list string) : list string :=
  match cs with
  | [] => if bool_decide (tok = EmptyString) then [] else [tok]
  | char :: cs' =>
    if is_space char
    then (if bool_decide (tok = EmptyString) then split_from EmptyString cs'
          else tok :: split_from EmptyString cs')
    else split_from (String.append tok char) cs'
  end.

Definition split (s : string) : list string :=
  split_from EmptyString (chars s).

(** [for transition in transitions: ...] with [delta] built so far. *)
Fixpoint load_delta (sts alph : list string) (transitions : list string)
    (dl : list transition_rule) : load_error + list transition_rule :=
  match transitions with
  | [] => inr dl
  | t :: transitions' =>
    match split t with
    | [origin; sym; dest] =>
      if bool_decide (origin ∉ sts) || bool_decide (dest ∉ sts)
      then inl (InvalidTransitionState t)
      else if bool_decide (sym ≠ epsilon) && bool_decide (sym ∉ alph)
      then inl (InvalidTransitionSymbol t)
      else load_delta sts alph transitions' (dl ++ [(origin, sym, dest)])
    | _ => inl (InvalidTransition t)
    end
  end.

(** [load_automata] on the lines read from the file. *)
Definition load_automata (file_lines : list string)
    : load_error + automaton :=
  let lines := strip <$> file_lines in
  match lines with
  | l0 :: l1 :: l2 :: l3 :: l4 :: transitions' =>
    let alph := split l0 in
    let sts := split l1 in
    let finals := split l2 in
    let initial := l3 in
    let transitions := l4 :: transitions' in
    if existsb (λ state, bool_decide (state ∉ sts)) finals
    then inl InvalidFinalState
    else
      match load_delta sts alph transitions [] with
      | inl e => inl e
      | inr dl =>
        if bool_decide (initial ∉ sts) then inl InvalidInitialState
        else inr (Automaton sts alph dl initial finals)
      end
  | _ => inl InsufficientLines
  end.

(** A transition line the loader refuses: it has not exactly three tokens,
    or its origin or destination is not a state, or its symbol is neither
    the empty symbol nor in the alphabet. *)
Definition bad_rule (sts alph : list string) (line : string) : Prop :=
  match split line with
  | [origin; sym; dest] =>
    origin ∉ sts ∨ dest ∉ sts ∨ (sym ≠ epsilon ∧ sym ∉ alph)
  | _ => True
  end.

(** ** The properties the engines are specified against *)

(** The invariants of an automaton: the initial state and the accepting
    states are states, every rule goes between states on the empty symbol or
    a symbol of the alphabet, and the alphabet does not contain the empty
    symbol. *)
Definition well_formed (a : automaton) : Prop :=
  initial_state a ∈ states a
  ∧ Forall (λ q, q ∈ states a) (final_states a)
  ∧ Forall (λ t : transition_rule,
              t.1.1 ∈ states a ∧ t.2 ∈ states a
              ∧ (t.1.2 = epsilon ∨ t.1.2 ∈ alphabet a)) (delta a)
  ∧ epsilon ∉ alphabet a.

Global Instance well_formed_dec a : Decision (well_formed a).
Proof. unfold well_formed. apply _. Defined.

(** A name without the separator of [state_to_str]. *)
Definition comma_free (s : string) : Prop :=
  ("," : ascii) ∉ list_ascii_of_string s.

Global Instance comma_free_dec s : Decision (comma_free s).
Proof. unfold comma_free. apply _. Defined.

(** Names as the loader yields them for plain identifiers: not empty and
    without a comma. *)
Definition plain_names (l : list string) : Prop :=
  Forall (λ q, q ≠ EmptyString ∧ comma_free q) l.

Global Instance plain_names_dec l : Decision (plain_names l).
Proof. unfold plain_names. apply _. Defined.

(** One empty move of the automaton. *)
Definition eps_step (dl : list transition_rule) (p q : string) : Prop :=
  (p, epsilon, q) ∈ dl.

(** The states reached from a state of [sts] by empty moves only. *)
Definition eps_reach (dl : list transition_rule) (sts : gset string)
    (q : string) : Prop :=
  ∃ p, p ∈ sts ∧ rtc (eps_step dl) p q.

(** A set of states closed under empty moves. *)
Definition eps_closed (dl : list transition_rule) (sts : gset string)
    : Prop :=
  ∀ x d, x ∈ sts → eps_step dl x d → d ∈ sts.

(** The runs of a nondeterministic automaton with empty moves: [nfa_run dl
    q w r] when some run from [q] reads exactly the symbols [w] and ends
    in [r]. *)
Inductive nfa_run (dl : list transition_rule)
    : string → list string → string → Prop :=
  | nfa_run_done q : nfa_run dl q [] q
  | nfa_run_eps q q' w r :
      (q, epsilon, q') ∈ dl → nfa_run dl q' w r → nfa_run dl q w r
  | nfa_run_sym q c q' w r :
      c ≠ epsilon → (q, c, q') ∈ dl → nfa_run dl q' w r →
      nfa_run dl q (c :: w) r.

(** Some run of the automaton reads the symbols [w]. *)
Definition nfa_reads (a : automaton) (w : list string) : Prop :=
  ∃ r, nfa_run (delta a) (initial_state a) w r.

(** Some run of the automaton reads [w] and ends in an accepting state. *)
Definition nfa_accepts (a : automaton) (w : list string) : Prop :=
  ∃ r, nfa_run (delta a) (initial_state a) w r ∧ r ∈ final_states a.

(** ** Example automata *)

(** An automaton with one empty move: [q0 -&-> q1 -a-> q2], [q2]
    accepting. *)
Definition eps_nfa : automaton :=
  Automaton ["q0"; "q1"; "q2"] ["a"]
            [("q0", "&", "q1"); ("q1", "a", "q2")] "q0" ["q2"].

(** What the converter returns for it. *)
Definition eps_dfa : automaton :=
  Automaton ["q0,q1"; "q2"; "q2"] ["a"] [("q0,q1", "a", "q2")]
            "q0,q1" ["q2"; "q2"].

(** An automaton with a state whose name is the empty string. *)
Definition empty_name_nfa : automaton :=
  Automaton ["q"; EmptyString] ["a"] [("q", "a", EmptyString)] "q"
            [EmptyString].

(** An automaton with one move, [q0 -a-> q1]. *)
Definition one_move_nfa : automaton :=
  Automaton ["q0"; "q1"] ["a"] [("q0", "a", "q1")] "q0" ["q1"].

(** ** Determinism *)

(** No two rules of the list leave the same state on the same symbol for
    different destinations. *)
Definition deterministic (dl : list transition_rule) : Prop :=
  Forall (λ t : transition_rule,
            Forall (λ t' : transition_rule, t.1 = t'.1 → t.2 = t'.2) dl) dl.

Global Instance deterministic_dec dl : Decision (deterministic dl).
Proof. unfold deterministic. apply _. Defined.

(** ** A description for the loader *)

(** What a transition line has to be for the loader to keep it as the
    rule [r]. *)
Definition parsed_rule (sts alph : list string) (line : string)
    (r : transition_rule) : Prop :=
  split line = [r.1.1; r.1.2; r.2]
  ∧ r.1.1 ∈ sts ∧ r.2 ∈ sts ∧ (r.1.2 = epsilon ∨ r.1.2 ∈ alph).


(** The lines of a file, as read, and the automaton they describe. *)
Definition two_state_lines : list string :=
  ["a b
"; "q0  q1
"; " q1
"; "q0
"; "q0 a q1
"; "q1 & q0"].

Definition two_state_automaton : automaton :=
  Automaton ["q0"; "q1"] ["a"; "b"]
            [("q0", "a", "q1"); ("q1", "&", "q0")] "q0" ["q1"].

(** * Properties of the model *)

(** Closed decidable statements are settled by evaluating their decision
    procedure. *)
Ltac decide_by_computation :=
  apply (bool_decide_unpack _); vm_compute; exact I.


(** ** The closure loops *)

Lemma size_list_to_set_length `{Countable A} (l : list A) :
  size (list_to_set l : gset A) ≤ length l.
Proof.
  induction l as [|x l IH].
  - by rewrite list_to_set_nil, size_empty.
  - rewrite list_to_set_cons, size_union_alt, size_singleton. simpl.
    assert (size (list_to_set l ∖ {[x]} : gset A) ≤ size (list_to_set l : gset A))
      by (apply subseteq_size; set_solver).
    lia.
Qed.

Section closure.
Variable dl : list transition_rule.

(** The destinations of the rules: all a closure loop can ever add. *)
Let dests : gset string := list_to_set (dl.*2).

Lemma eps_step_dest p q : eps_step dl p q → q ∈ dests.
Proof.
  unfold eps_step, dests. intros Hin. apply elem_of_list_to_set.
  apply list_elem_of_fmap. by exists (p, epsilon, q).
Qed.

(** One scan of [delta] pushes exactly the empty-move successors of
    [current] that were not in the closure, each of them once. *)
Lemma closure_scan_fold current l closure stack :
  ∃ news,
    fold_left (closure_scan current) l (closure, stack)
      = (list_to_set news ∪ closure, news ++ stack)
    ∧ NoDup news
    ∧ (∀ x, x ∈ news → (x ∉ closure) ∧ (current, epsilon, x) ∈ l)
    ∧ (∀ d, (current, epsilon, d) ∈ l → d ∈ list_to_set news ∪ closure).
Proof.
  revert closure stack. induction l as [|[[o s] d] l IH]; intros closure stack.
  - exists []. simpl. split_and!.
    + f_equal. set_solver.
    + constructor.
    + intros x Hx. by apply elem_of_nil in Hx.
    + intros d Hd. by apply elem_of_nil in Hd.
  - simpl.
    destruct (bool_decide (o = current) && bool_decide (s = epsilon)
              && bool_decide (d ∉ closure)) eqn:Hc.
    + apply andb_true_iff in Hc as [Hc Hd].
      apply andb_true_iff in Hc as [Ho Hs].
      apply bool_decide_eq_true in Ho, Hs, Hd. subst o s.
      destruct (IH ({[d]} ∪ closure) (d :: stack))
        as (news & Heq & Hnd & Hnew & Hall).
      exists (news ++ [d]). rewrite Heq. split_and!.
      * f_equal; [set_solver | by rewrite <- app_assoc].
      * apply NoDup_app. split_and!; [done | | apply NoDup_singleton].
        intros x Hx Hx'. apply list_elem_of_singleton in Hx'. subst x.
        destruct (Hnew d Hx) as [Hn _]. set_solver.
      * intros x Hx. apply elem_of_app in Hx as [Hx|Hx].
        -- destruct (Hnew x Hx) as [Hn Hin]. split; [set_solver|].
           by apply list_elem_of_further.
        -- apply list_elem_of_singleton in Hx. subst x. split; [done|].
           apply list_elem_of_here.
      * intros d' Hd'. apply elem_of_cons in Hd' as [Hd'|Hd'].
        -- inversion Hd'; subst. set_solver.
        -- specialize (Hall d' Hd'). set_solver.
    + destruct (IH closure stack) as (news & Heq & Hnd & Hnew & Hall).
      exists news. rewrite Heq. split_and!; [done | done | |].
      * intros x Hx. destruct (Hnew x Hx) as [Hn Hin]. split; [done|].
        by apply list_elem_of_further.
      * intros d' Hd'. apply elem_of_cons in Hd' as [Hd'|Hd'].
        -- inversion Hd'; subst.
           rewrite !bool_decide_eq_true_2 in Hc by done. simpl in Hc.
           apply bool_decide_eq_false in Hc.
           apply dec_stable in Hc. set_solver.
        -- by apply Hall.
Qed.

(** The loop stops: a turn pops one state and pushes only destinations
    that were missing from the closure. *)
Lemma closure_loop_terminates fuel closure stack :
  length stack + size (dests ∖ closure) < fuel →
  is_Some (closure_loop fuel dl closure stack).
Proof.
  revert closure stack. induction fuel as [|fuel IH]; intros closure stack Hlt.
  - lia.
  - destruct stack as [|current rest]; simpl; [by eexists|].
    destruct (closure_scan_fold current dl closure rest)
      as (news & Heq & Hnd & Hnew & _).
    rewrite Heq. apply IH.
    assert (Hsplit : dests ∖ closure
              = (dests ∖ (list_to_set news ∪ closure)) ∪ list_to_set news).
    { apply set_eq. intros x. rewrite !elem_of_union, !elem_of_difference,
        elem_of_union, elem_of_list_to_set.
      split.
      - intros [Hd Hn]. destruct (decide (x ∈ news)); [by right|left]. tauto.
      - intros [[Hd Hn]|Hx]; [tauto|].
        destruct (Hnew x Hx) as [Hn Hin]. split; [|done].
        by apply (eps_step_dest current). }
    rewrite Hsplit, size_union in Hlt by set_solver.
    rewrite size_list_to_set in Hlt by done.
    rewrite length_app. simpl in Hlt. lia.
Qed.

(** What the loop returns: a superset of the closure it started from,
    closed under empty moves, and made of states reached from it. *)
Lemma closure_loop_sound fuel closure stack result :
  closure_loop fuel dl closure stack = Some result →
  (∀ x, x ∈ stack → x ∈ closure) →
  (∀ x, x ∈ closure → x ∈ stack ∨ ∀ d, eps_step dl x d → d ∈ closure) →
  closure ⊆ result
  ∧ (∀ x d, x ∈ result → eps_step dl x d → d ∈ result)
  ∧ (∀ x, x ∈ result → eps_reach dl closure x).
Proof.
  revert closure stack.
  induction fuel as [|fuel IH]; intros closure stack Hrun Hst Hinv;
    [done|].
  destruct stack as [|current rest]; simpl in Hrun.
  - inversion Hrun; subst result. split_and!; [done | |].
    + intros x d Hx Hstep. destruct (Hinv x Hx) as [Hin|Hcl].
      * by apply elem_of_nil in Hin.
      * by apply Hcl.
    + intros x Hx. exists x. split; [done | apply rtc_refl].
  - destruct (closure_scan_fold current dl closure rest)
      as (news & Heq & Hnd & Hnew & Hall).
    rewrite Heq in Hrun.
    apply IH in Hrun as (Hsub & Hclosed & Hreach).
    + split_and!; [set_solver | done |].
      intros x Hx. destruct (Hreach x Hx) as (p & Hp & Hrtc).
      apply elem_of_union in Hp as [Hp|Hp].
      * apply elem_of_list_to_set in Hp. destruct (Hnew p Hp) as [_ Hin].
        exists current. split; [apply Hst, list_elem_of_here|].
        by eapply rtc_l.
      * by exists p.
    + intros x Hx. apply elem_of_app in Hx as [Hx|Hx].
      * apply elem_of_union_l. by apply elem_of_list_to_set.
      * apply elem_of_union_r, Hst. by apply list_elem_of_further.
    + intros x Hx. apply elem_of_union in Hx as [Hx|Hx].
      * left. apply elem_of_app. left. by apply elem_of_list_to_set in Hx.
      * destruct (Hinv x Hx) as [Hin|Hcl].
        -- apply elem_of_cons in Hin as [->|Hin].
           ++ right. intros d Hd. by apply Hall.
           ++ left. apply elem_of_app. by right.
        -- right. intros d Hd. apply elem_of_union_r. by apply Hcl.
Qed.

Lemma eps_reach_closed (X : gset string) sts q :
  sts ⊆ X → (∀ x d, x ∈ X → eps_step dl x d → d ∈ X) →
  eps_reach dl sts q → q ∈ X.
Proof.
  intros Hsub Hclosed (p & Hp & Hrtc). apply Hsub in Hp.
  induction Hrtc as [|x y z Hxy _ IH]; [done|].
  apply IH. by apply (Hclosed x).
Qed.

(** A closure loop started with every state of the closure on the stack
    returns exactly the states reached by empty moves. *)
Lemma closure_loop_spec closure stack :
  (∀ x, x ∈ stack ↔ x ∈ closure) →
  ∃ result,
    closure_loop (closure_fuel dl stack) dl closure stack = Some result
    ∧ ∀ q, q ∈ result ↔ eps_reach dl closure q.
Proof.
  intros Hst.
  destruct (closure_loop_terminates (closure_fuel dl stack) closure stack)
    as [result Hrun].
  { unfold closure_fuel.
    assert (size (dests ∖ closure) ≤ length dl); [|lia].
    etrans; [apply (subseteq_size _ dests); set_solver|].
    unfold dests. etrans; [apply size_list_to_set_length|].
    by rewrite length_fmap. }
  exists result. split; [done|].
  apply closure_loop_sound in Hrun as (Hsub & Hclosed & Hreach).
  - intros q. split; [apply Hreach|]. by apply eps_reach_closed.
  - intros x. apply Hst.
  - intros x Hx. left. by apply Hst.
Qed.
End closure.

(** ** Closures of sets and of single states *)

Section closure_functions.
Variable dl : list transition_rule.

(** [epsilon_closure] returns, whatever the order in which the set is
    enumerated, the states reached from it by empty moves. *)
Lemma epsilon_closure_from_spec enum :
  ∃ result,
    epsilon_closure_from dl enum = Some result
    ∧ ∀ q, q ∈ result ↔ eps_reach dl (list_to_set enum) q.
Proof.
  unfold epsilon_closure_from.
  replace (closure_fuel dl enum) with (closure_fuel dl (reverse enum))
    by (unfold closure_fuel; by rewrite length_reverse).
  apply closure_loop_spec. intros x.
  by rewrite elem_of_reverse, elem_of_list_to_set.
Qed.

Lemma epsilon_closure_spec sts :
  ∃ result,
    epsilon_closure dl sts = Some result
    ∧ ∀ q, q ∈ result ↔ eps_reach dl sts q.
Proof.
  destruct (epsilon_closure_from_spec (elements sts)) as (result & Hrun & Hspec).
  exists result. split; [done|].
  intros q. rewrite Hspec. by rewrite list_to_set_elements_L.
Qed.

Lemma epsilon_closure_enum sts enum :
  enum ≡ₚ elements sts →
  epsilon_closure_from dl enum = epsilon_closure dl sts.
Proof.
  intros Hperm.
  destruct (epsilon_closure_from_spec enum) as (r1 & -> & H1).
  destruct (epsilon_closure_spec sts) as (r2 & -> & H2).
  f_equal. apply set_eq. intros q. rewrite H1, H2.
  replace (list_to_set enum : gset string) with sts; [done|].
  apply set_eq. intros x.
  by rewrite elem_of_list_to_set, Hperm, elem_of_elements.
Qed.

Lemma handle_closure_spec state :
  ∃ result,
    handle_closure state dl = Some result
    ∧ ∀ q, q ∈ result ↔ rtc (eps_step dl) state q.
Proof.
  destruct (closure_loop_spec dl {[state]} [state]) as (result & Hrun & Hspec).
  { intros x. by rewrite list_elem_of_singleton, elem_of_singleton. }
  exists result. split; [done|].
  intros q. rewrite Hspec. unfold eps_reach. split.
  - intros (p & Hp & Hrtc). apply elem_of_singleton in Hp. by subst p.
  - intros Hrtc. exists state. split; [by apply elem_of_singleton | done].
Qed.

Lemma epsilon_closure_eclose sts :
  epsilon_closure dl sts = Some (eclose dl sts).
Proof.
  unfold eclose. by destruct (epsilon_closure_spec sts) as (r & -> & _).
Qed.

Lemma elem_of_eclose sts q : q ∈ eclose dl sts ↔ eps_reach dl sts q.
Proof.
  unfold eclose. by destruct (epsilon_closure_spec sts) as (r & -> & Hr).
Qed.

Lemma eclose_subseteq sts : sts ⊆ eclose dl sts.
Proof.
  intros q Hq. apply elem_of_eclose. exists q. split; [done | apply rtc_refl].
Qed.

Lemma eclose_closed sts p q :
  p ∈ eclose dl sts → eps_step dl p q → q ∈ eclose dl sts.
Proof.
  rewrite !elem_of_eclose. intros (r & Hr & Hrtc) Hstep.
  exists r. split; [done|]. by eapply rtc_r.
Qed.

Lemma eclose_idemp sts : eclose dl (eclose dl sts) = eclose dl sts.
Proof.
  apply set_eq. intros q. split.
  - rewrite (elem_of_eclose (eclose dl sts)).
    apply eps_reach_closed; [done|]. intros x d. apply eclose_closed.
  - apply eclose_subseteq.
Qed.

Lemma eclose_empty_iff sts : eclose dl sts = ∅ ↔ sts = ∅.
Proof.
  split.
  - intros Hempty. pose proof (eclose_subseteq sts) as Hsub.
    rewrite Hempty in Hsub. set_solver.
  - intros ->. apply set_eq. intros q. rewrite elem_of_eclose.
    split; [|set_solver]. intros (p & Hp & _). set_solver.
Qed.
End closure_functions.

(** ** Reachable sets *)

Section reachable.
Variable dl : list transition_rule.

Lemma find_scan_fold state symbol l result q :
  q ∈ fold_left (find_scan state symbol) l result
  ↔ q ∈ result ∨ (state, symbol, q) ∈ l.
Proof.
  revert result. induction l as [|[[o s] d] l IH]; intros result; simpl.
  - rewrite elem_of_nil. tauto.
  - rewrite IH, elem_of_cons.
    destruct (bool_decide (o = state) && bool_decide (s = symbol)) eqn:Hc.
    + apply andb_true_iff in Hc as [Ho Hs].
      apply bool_decide_eq_true in Ho, Hs. subst o s.
      rewrite elem_of_union, elem_of_singleton. split.
      * intros [[->|?]|?]; auto.
      * intros [?|[Heq|?]]; auto. inversion Heq; auto.
    + split; [tauto|]. intros [?|[Heq|?]]; auto.
      inversion Heq; subst. by rewrite !bool_decide_eq_true_2 in Hc.
Qed.

Lemma find_states_fold symbol enum result q :
  q ∈ fold_left (λ result state,
                   fold_left (find_scan state symbol) dl result) enum result
  ↔ q ∈ result ∨ ∃ o, o ∈ enum ∧ (o, symbol, q) ∈ dl.
Proof.
  revert result. induction enum as [|state enum IH]; intros result; simpl.
  - split; [tauto|]. intros [?|(o & Ho & _)]; [done|].
    by apply elem_of_nil in Ho.
  - rewrite IH, find_scan_fold. split.
    + intros [[?|?]|(o & Ho & Hin)]; auto.
      * right. exists state. split; [apply list_elem_of_here | done].
      * right. exists o. split; [by apply list_elem_of_further | done].
    + intros [?|(o & Ho & Hin)]; auto.
      apply elem_of_cons in Ho as [->|Ho]; eauto.
Qed.

Lemma elem_of_find_transitions_from enum symbol q :
  q ∈ find_transitions_from dl enum symbol
  ↔ ∃ o, o ∈ enum ∧ (o, symbol, q) ∈ dl.
Proof.
  unfold find_transitions_from. rewrite find_states_fold.
  split; [|tauto]. intros [Hq|?]; [|done]. set_solver.
Qed.

Lemma elem_of_find_transitions sts symbol q :
  q ∈ find_transitions dl sts symbol
  ↔ ∃ o, o ∈ sts ∧ (o, symbol, q) ∈ dl.
Proof.
  unfold find_transitions. rewrite elem_of_find_transitions_from.
  split; intros (o & Ho & Hin); exists o; split; try done;
    by apply elem_of_elements.
Qed.

Lemma find_transitions_enum sts enum symbol :
  enum ≡ₚ elements sts →
  find_transitions_from dl enum symbol = find_transitions dl sts symbol.
Proof.
  intros Hperm. apply set_eq. intros q.
  rewrite elem_of_find_transitions_from, elem_of_find_transitions.
  split; intros (o & Ho & Hin); exists o; split; try done.
  - apply elem_of_elements. by rewrite <- Hperm.
  - rewrite Hperm. by apply elem_of_elements.
Qed.
End reachable.

(** ** Naming of state sets *)

Global Instance str_le_total : Total str_le.
Proof. intros s1 s2. apply String.leb_total. Qed.

Global Instance str_le_antisymm : AntiSymm (=) str_le.
Proof. intros s1 s2. apply String.leb_antisym. Qed.

Global Instance str_le_trans : Transitive str_le.
Proof.
  unfold str_le, String.leb. intros s1.
  induction s1 as [|c1 s1 IH]; intros [|c2 s2] [|c3 s3]; simpl; try done.
  unfold Ascii.compare.
  destruct (N.compare_spec (N_of_ascii c1) (N_of_ascii c2)) as [H12|H12|H12];
    destruct (N.compare_spec (N_of_ascii c2) (N_of_ascii c3)) as [H23|H23|H23];
    destruct (N.compare_spec (N_of_ascii c1) (N_of_ascii c3)) as [H13|H13|H13];
    try done; try lia.
  apply IH.
Qed.

Lemma sorted_perm l : sorted l ≡ₚ l.
Proof. apply merge_sort_Permutation. Qed.

(** Sorting forgets the order in which a set is enumerated. *)
Lemma sorted_enum l1 l2 : l1 ≡ₚ l2 → sorted l1 = sorted l2.
Proof.
  intros Hperm. apply (Sorted_unique str_le).
  - apply Sorted_merge_sort, _.
  - apply Sorted_merge_sort, _.
  - by rewrite !sorted_perm.
Qed.

Lemma state_to_str_enum state_set enum :
  enum ≡ₚ elements state_set →
  state_to_str_from enum = state_to_str state_set.
Proof.
  intros Hperm. unfold state_to_str, state_to_str_from.
  by rewrite (sorted_enum _ _ Hperm).
Qed.

Lemma comma_free_cons c s :
  comma_free (String c s) ↔ c ≠ ("," : ascii) ∧ comma_free s.
Proof.
  unfold comma_free. simpl. rewrite not_elem_of_cons. split.
  - intros [Hne Hs]. split; [congruence | done].
  - intros [Hne Hs]. split; [congruence | done].
Qed.

Lemma comma_free_append_inj x y s t :
  comma_free x → comma_free y →
  String.append x (String "," s) = String.append y (String "," t) →
  x = y ∧ s = t.
Proof.
  revert y. induction x as [|c x IH]; intros [|c' y] Hx Hy Heq; simpl in Heq.
  - by inversion Heq.
  - inversion Heq; subst. apply comma_free_cons in Hy. by destruct Hy.
  - inversion Heq; subst. apply comma_free_cons in Hx. by destruct Hx.
  - inversion Heq; subst. apply comma_free_cons in Hx as [_ Hx].
    apply comma_free_cons in Hy as [_ Hy].
    destruct (IH y Hx Hy) as [-> ->]; done.
Qed.

Lemma comma_free_no_append x y t :
  comma_free x → x ≠ String.append y (String "," t).
Proof.
  revert x. induction y as [|c y IH]; intros x Hx Heq; subst x; simpl in Hx.
  - apply comma_free_cons in Hx. by destruct Hx.
  - apply comma_free_cons in Hx as [_ Hx]. by apply (IH _ Hx).
Qed.

(** Joining with commas can be undone when no name has a comma. *)
Lemma concat_comma_inj l1 l2 :
  l1 ≠ [] → l2 ≠ [] → Forall comma_free l1 → Forall comma_free l2 →
  String.concat "," l1 = String.concat "," l2 → l1 = l2.
Proof.
  revert l2. induction l1 as [|x l1 IH]; intros l2 Hn1 Hn2 Hf1 Hf2 Heq;
    [done|].
  destruct l2 as [|y l2]; [done|].
  apply Forall_cons in Hf1 as [Hx Hf1]. apply Forall_cons in Hf2 as [Hy Hf2].
  destruct l1 as [|x' l1], l2 as [|y' l2]; simpl in Heq.
  - by subst.
  - by apply comma_free_no_append in Heq.
  - symmetry in Heq. by apply comma_free_no_append in Heq.
  - apply comma_free_append_inj in Heq as [-> Heq]; [|done..].
    f_equal. by apply IH.
Qed.

Lemma concat_comma_nonempty l :
  l ≠ [] → Forall (λ s, s ≠ EmptyString) l → String.concat "," l ≠ EmptyString.
Proof.
  intros Hn Hf. destruct l as [|x l]; [done|].
  apply Forall_cons in Hf as [Hx _].
  destruct l as [|y l]; simpl; [done|]. by destruct x.
Qed.

Lemma sorted_elements_nonempty (state_set : gset string) :
  state_set ≠ ∅ → sorted (elements state_set) ≠ [].
Proof.
  intros Hne Hnil. apply Hne, leibniz_equiv, elements_empty_inv.
  apply Permutation_nil_r. by rewrite <- Hnil, sorted_perm.
Qed.

(** The names of two non-empty sets of comma-free names differ when the
    sets do. *)
Lemma state_to_str_inj (s t : gset string) :
  s ≠ ∅ → t ≠ ∅ →
  (∀ q, q ∈ s → comma_free q) → (∀ q, q ∈ t → comma_free q) →
  state_to_str s = state_to_str t → s = t.
Proof.
  intros Hs Ht Hfs Hft Heq. unfold state_to_str, state_to_str_from in Heq.
  apply concat_comma_inj in Heq.
  - apply set_eq. intros q.
    rewrite <- !elem_of_elements, <- (sorted_perm (elements s)),
      <- (sorted_perm (elements t)). by rewrite Heq.
  - by apply sorted_elements_nonempty.
  - by apply sorted_elements_nonempty.
  - apply Forall_forall. intros q Hq. apply Hfs.
    apply elem_of_elements. by rewrite <- (sorted_perm (elements s)).
  - apply Forall_forall. intros q Hq. apply Hft.
    apply elem_of_elements. by rewrite <- (sorted_perm (elements t)).
Qed.

Lemma state_to_str_nonempty (s : gset string) :
  s ≠ ∅ → (∀ q, q ∈ s → q ≠ EmptyString) → state_to_str s ≠ EmptyString.
Proof.
  intros Hs Hne. apply concat_comma_nonempty.
  - by apply sorted_elements_nonempty.
  - apply Forall_forall. intros q Hq. apply Hne.
    apply elem_of_elements. by rewrite <- (sorted_perm (elements s)).
Qed.

(** ** The main loop of the conversion *)

Lemma has_final_spec finals (state_set : gset string) :
  has_final finals state_set = true ↔ ∃ q, q ∈ state_set ∧ q ∈ finals.
Proof.
  unfold has_final, has_final_from. rewrite existsb_exists. split.
  - intros (q & Hq & Hf). exists q. apply bool_decide_eq_true in Hf.
    split; [|done]. apply elem_of_elements. by apply list_elem_of_In.
  - intros (q & Hq & Hf). exists q. split.
    + apply list_elem_of_In. by apply elem_of_elements.
    + by apply bool_decide_eq_true.
Qed.

Lemma has_final_enum finals (state_set : gset string) enum :
  enum ≡ₚ elements state_set →
  has_final_from finals enum = has_final finals state_set.
Proof.
  intros Hperm. apply eq_true_iff_eq. unfold has_final, has_final_from.
  rewrite !existsb_exists.
  split; intros (q & Hq & Hf); exists q; split; try done;
    apply list_elem_of_In; apply list_elem_of_In in Hq.
  - by rewrite <- Hperm.
  - by rewrite Hperm.
Qed.

Section convert.
Variable dl : list transition_rule.
Variable alph : list string.

(** A set of names that holds every destination of a rule. *)
Variable U : gset string.
Hypothesis U_dests : ∀ o s d, (o, s, d) ∈ dl → d ∈ U.

Lemma next_set_subseteq sts symbol : next_set dl sts symbol ⊆ U.
Proof.
  intros q Hq. apply elem_of_eclose in Hq.
  apply (eps_reach_closed dl U) in Hq; [done | |].
  - intros p Hp. apply elem_of_find_transitions in Hp as (o & _ & Hin).
    by eapply U_dests.
  - intros x d _ Hstep. by eapply U_dests.
Qed.

Lemma expand_symbol_eq current queue visited new_delta symbol :
  expand_symbol dl current (queue, visited, new_delta) symbol
  = Some
      (let next_states := next_set dl current symbol in
       if bool_decide (next_states ≠ ∅) then
         if bool_decide (next_states ∉ visited)
         then (next_states :: queue, visited ++ [next_states],
               new_delta ++ edges_of dl current [symbol])
         else (queue, visited, new_delta ++ edges_of dl current [symbol])
       else (queue, visited, new_delta ++ edges_of dl current [symbol])).
Proof.
  unfold expand_symbol, edges_of. rewrite filter_cons, filter_nil.
  unfold next_set. rewrite epsilon_closure_eclose. simpl.
  destruct (decide (eclose dl (find_transitions dl current symbol) ≠ ∅))
    as [Hne|He].
  - rewrite (bool_decide_eq_true_2 _ Hne). simpl.
    by destruct (bool_decide _).
  - rewrite (bool_decide_eq_false_2 _ He). simpl. by rewrite app_nil_r.
Qed.

(** One turn of the main loop after the pop: the new sets are pushed and
    recorded once each, and one rule is emitted per symbol with a
    non-empty successor. *)
Lemma expand_symbols_spec current symbols queue visited new_delta :
  ∃ news,
    expand_symbols dl current symbols (queue, visited, new_delta)
      = Some (reverse news ++ queue, visited ++ news,
              new_delta ++ edges_of dl current symbols)
    ∧ NoDup news
    ∧ (∀ V, V ∈ news →
         (V ∉ visited) ∧ V ≠ ∅
         ∧ ∃ symbol, symbol ∈ symbols ∧ V = next_set dl current symbol)
    ∧ (∀ symbol, symbol ∈ symbols → next_set dl current symbol ≠ ∅ →
         next_set dl current symbol ∈ visited ++ news).
Proof.
  revert queue visited new_delta.
  induction symbols as [|symbol symbols IH]; intros queue visited new_delta.
  - exists []. simpl. rewrite !app_nil_r. split_and!; [done | constructor | |].
    + intros V HV. by apply elem_of_nil in HV.
    + intros symbol Hs. by apply elem_of_nil in Hs.
  - change (expand_symbols dl current (symbol :: symbols)
              (queue, visited, new_delta))
      with (expand_symbol dl current (queue, visited, new_delta) symbol
              ≫= expand_symbols dl current symbols).
    rewrite expand_symbol_eq. cbn [mbind option_bind].
    assert (Hedges : ∀ nd, (nd ++ edges_of dl current [symbol])
                       ++ edges_of dl current symbols
                     = nd ++ edges_of dl current (symbol :: symbols)).
    { intros nd. rewrite <- app_assoc. f_equal. unfold edges_of.
      rewrite <- fmap_app. f_equal.
      by rewrite <- filter_app. }
    destruct (decide (next_set dl current symbol ≠ ∅)) as [Hne|He].
    + rewrite (bool_decide_eq_true_2 _ Hne).
      destruct (decide (next_set dl current symbol ∉ visited)) as [Hnv|Hv].
      * rewrite (bool_decide_eq_true_2 _ Hnv).
        destruct (IH (next_set dl current symbol :: queue)
                     (visited ++ [next_set dl current symbol])
                     (new_delta ++ edges_of dl current [symbol]))
          as (news & Heq & Hnd & Hnew & Hall).
        exists (next_set dl current symbol :: news). rewrite Heq, Hedges.
        split_and!.
        -- by rewrite reverse_cons, <- !app_assoc.
        -- constructor; [|done]. intros Hin.
           destruct (Hnew _ Hin) as (Hn & _). apply Hn.
           apply elem_of_app. right. apply list_elem_of_here.
        -- intros V HV. apply elem_of_cons in HV as [->|HV].
           ++ split_and!; [done..|]. exists symbol.
              split; [apply list_elem_of_here | done].
           ++ destruct (Hnew V HV) as (Hn & Hne' & s' & Hs' & ->).
              split_and!; [|done|].
              ** intros Hin. apply Hn. apply elem_of_app. by left.
              ** exists s'. split; [by apply list_elem_of_further | done].
        -- intros s' Hs' Hne'. apply elem_of_cons in Hs' as [->|Hs'].
           ++ apply elem_of_app. right. apply list_elem_of_here.
           ++ specialize (Hall s' Hs' Hne').
              rewrite <- app_assoc in Hall. done.
      * rewrite (bool_decide_eq_false_2 _ Hv).
        apply dec_stable in Hv.
        destruct (IH queue visited (new_delta ++ edges_of dl current [symbol]))
          as (news & Heq & Hnd & Hnew & Hall).
        exists news. rewrite Heq, Hedges. split_and!; [done..| |].
        -- intros V HV. destruct (Hnew V HV) as (Hn & Hne' & s' & Hs' & ->).
           split_and!; [done..|]. exists s'.
           split; [by apply list_elem_of_further | done].
        -- intros s' Hs' Hne'. apply elem_of_cons in Hs' as [->|Hs'].
           ++ apply elem_of_app. by left.
           ++ by apply Hall.
    + rewrite (bool_decide_eq_false_2 _ He).
      destruct (IH queue visited (new_delta ++ edges_of dl current [symbol]))
        as (news & Heq & Hnd & Hnew & Hall).
      exists news. rewrite Heq, Hedges. split_and!; [done..| |].
      * intros V HV. destruct (Hnew V HV) as (Hn & Hne' & s' & Hs' & ->).
        split_and!; [done..|]. exists s'.
        split; [by apply list_elem_of_further | done].
      * intros s' Hs' Hne'. apply elem_of_cons in Hs' as [->|Hs'].
        -- done.
        -- by apply Hall.
Qed.

Lemma elem_of_edges_of sts symbols e :
  e ∈ edges_of dl sts symbols
  ↔ ∃ symbol, symbol ∈ symbols ∧ next_set dl sts symbol ≠ ∅
      ∧ e = (state_to_str sts, symbol, state_to_str (next_set dl sts symbol)).
Proof.
  unfold edges_of. rewrite list_elem_of_fmap. split.
  - intros (symbol & -> & Hin). apply list_elem_of_filter in Hin as [Hne Hin].
    by exists symbol.
  - intros (symbol & Hin & Hne & ->). exists symbol. split; [done|].
    by apply list_elem_of_filter.
Qed.
End convert.

(** ** Counting the state sets *)

Lemma elem_of_subsets_of (l : list string) (V : gset string) :
  V ⊆ list_to_set l → V ∈ subsets_of l.
Proof.
  revert V. induction l as [|x l IH]; intros V HV; simpl.
  - apply list_elem_of_singleton. set_solver.
  - apply elem_of_app. destruct (decide (x ∈ V)) as [Hx|Hx].
    + right. apply list_elem_of_fmap. exists (V ∖ {[x]}). split.
      * apply set_eq. intros y. rewrite elem_of_union, elem_of_singleton,
          elem_of_difference, elem_of_singleton.
        destruct (decide (y = x)) as [->|]; tauto.
      * apply IH. set_solver.
    + left. apply IH. set_solver.
Qed.

Lemma length_subsets_of (l : list string) : length (subsets_of l) = 2 ^ length l.
Proof.
  induction l as [|x l IH]; simpl; [done|].
  rewrite length_app, length_fmap, IH. lia.
Qed.

(** A family of subsets of [U] has at most [2 ^ size U] members. *)
Lemma size_subsets_le (U : gset string) (X : gset (gset string)) :
  (∀ V, V ∈ X → V ⊆ U) → size X ≤ 2 ^ size U.
Proof.
  intros HX.
  assert (Hsub : X ⊆ list_to_set (subsets_of (elements U))).
  { intros V HV. apply elem_of_list_to_set, elem_of_subsets_of.
    rewrite list_to_set_elements_L. by apply HX. }
  etrans; [apply (subseteq_size _ _ Hsub)|].
  etrans; [apply size_list_to_set_length|].
  by rewrite length_subsets_of.
Qed.

(** ** The main loop: what it computes, and that it stops *)

Section convert_loop.
Variable dl : list transition_rule.
Variable alph : list string.
Variable U : gset string.
Hypothesis U_dests : ∀ o s d, (o, s, d) ∈ dl → d ∈ U.

Lemma expanded_mono D D' nd nd' V :
  (∀ W, W ∈ D → W ∈ D') → (∀ e, e ∈ nd → e ∈ nd') →
  expanded dl alph D nd V → expanded dl alph D' nd' V.
Proof.
  intros HD Hnd Hexp symbol Hs Hne.
  destruct (Hexp symbol Hs Hne) as [H1 H2]. split; auto.
Qed.

Lemma edge_ok_mono D D' e :
  (∀ W, W ∈ D → W ∈ D') → edge_ok dl alph D e → edge_ok dl alph D' e.
Proof.
  intros HD (V & symbol & HV & Hs & Hne & ->). exists V, symbol. auto.
Qed.

Lemma convert_loop_sound fuel queue visited new_delta visited' new_delta' :
  convert_loop fuel dl alph (queue, visited, new_delta)
    = Some (visited', new_delta') →
  (∀ V, V ∈ visited →
     V ∈ queue ∨ expanded dl alph (visited ++ queue) new_delta V) →
  (∀ e, e ∈ new_delta → edge_ok dl alph visited e) →
  (∀ V, V ∈ visited ++ queue → V ≠ ∅ ∧ V ⊆ U) →
  (∀ V, V ∈ visited' → expanded dl alph visited' new_delta' V)
  ∧ (∀ e, e ∈ new_delta' → edge_ok dl alph visited' e)
  ∧ (∀ V, V ∈ visited' → V ≠ ∅ ∧ V ⊆ U)
  ∧ (∀ V, V ∈ visited ++ queue → V ∈ visited').
Proof.
  revert queue visited new_delta.
  induction fuel as [|fuel IH]; intros queue visited new_delta Hrun Hexp
    Hedge Hgood; [done|].
  destruct queue as [|current rest].
  - simpl in Hrun. inversion Hrun; subst visited' new_delta'.
    rewrite app_nil_r in *. split_and!; [|done..].
    intros V HV. destruct (Hexp V HV) as [Hin|Hex]; [|done].
    by apply elem_of_nil in Hin.
  - cbn [convert_loop] in Hrun.
    destruct (expand_symbols_spec dl current alph rest
                (visited ++ [current]) new_delta)
      as (news & Heq & Hnd & Hnew & Hall).
    rewrite Heq in Hrun. cbn [mbind option_bind] in Hrun.
    apply IH in Hrun as (H1 & H2 & H3 & H4).
    + split_and!; [done..|]. intros V HV. apply H4.
      rewrite !elem_of_app in *. rewrite elem_of_cons in HV.
      rewrite list_elem_of_singleton. tauto.
    + intros V HV.
      assert (Hcur : expanded dl alph
                       (((visited ++ [current]) ++ news)
                        ++ reverse news ++ rest)
                       (new_delta ++ edges_of dl current alph) current).
      { intros symbol Hs Hne. split.
        - apply elem_of_app. left. by apply Hall.
        - apply elem_of_app. right. apply elem_of_edges_of. by exists symbol. }
      rewrite !elem_of_app, list_elem_of_singleton in HV.
      destruct HV as [[HV| ->]|HV]; [| by right |].
      * destruct (Hexp V HV) as [Hin|Hex].
        -- apply elem_of_cons in Hin as [->|Hin]; [by right|].
           left. apply elem_of_app. by right.
        -- right. eapply expanded_mono; [| |exact Hex].
           ++ intros W HW. rewrite !elem_of_app in *.
              rewrite elem_of_cons in HW. rewrite list_elem_of_singleton.
              tauto.
           ++ intros e He. apply elem_of_app. by left.
      * left. apply elem_of_app. left. by apply elem_of_reverse.
    + intros e He. apply elem_of_app in He as [He|He].
      * eapply edge_ok_mono; [|by apply Hedge].
        intros W HW. rewrite !elem_of_app. tauto.
      * apply elem_of_edges_of in He as (symbol & Hs & Hne & ->).
        exists current, symbol. split_and!; [|done..].
        rewrite !elem_of_app, list_elem_of_singleton. tauto.
    + intros V HV.
      rewrite !elem_of_app, list_elem_of_singleton, elem_of_reverse in HV.
      assert (Hn : V ∈ news → V ≠ ∅ ∧ V ⊆ U).
      { intros Hin. destruct (Hnew V Hin) as (_ & Hne & s & _ & ->).
        split; [done|]. by apply next_set_subseteq. }
      destruct HV as [[[HV| ->]|HV]|[HV|HV]]; auto.
      * apply Hgood. apply elem_of_app. by left.
      * apply Hgood. apply elem_of_app. right. apply list_elem_of_here.
      * apply Hgood. apply elem_of_app. right.
        by apply list_elem_of_further.
Qed.

(** Every turn pops one set and pushes only sets that were not visited:
    with at most [2 ^ size U] sets to visit, the loop stops. *)
Lemma convert_loop_terminates fuel queue visited new_delta :
  (∀ V, V ∈ visited ++ queue → V ⊆ U) →
  length queue + 2 ^ size U
    < fuel + size (list_to_set visited : gset (gset string)) →
  is_Some (convert_loop fuel dl alph (queue, visited, new_delta)).
Proof.
  revert queue visited new_delta.
  induction fuel as [|fuel IH]; intros queue visited new_delta Hsub Hlt.
  - assert (size (list_to_set visited : gset (gset string)) ≤ 2 ^ size U);
      [|lia].
    apply size_subsets_le. intros V HV. apply Hsub.
    apply elem_of_app. left. by apply elem_of_list_to_set in HV.
  - destruct queue as [|current rest]; [by eexists|].
    cbn [convert_loop].
    destruct (expand_symbols_spec dl current alph rest
                (visited ++ [current]) new_delta)
      as (news & Heq & Hnd & Hnew & Hall).
    rewrite Heq. cbn [mbind option_bind]. apply IH.
    + intros V HV.
      rewrite !elem_of_app, list_elem_of_singleton, elem_of_reverse in HV.
      assert (Hn : V ∈ news → V ⊆ U).
      { intros Hin. destruct (Hnew V Hin) as (_ & Hne & s & _ & ->).
        by apply next_set_subseteq. }
      destruct HV as [[[HV| ->]|HV]|[HV|HV]]; auto.
      * apply Hsub. apply elem_of_app. by left.
      * apply Hsub. apply elem_of_app. right. apply list_elem_of_here.
      * apply Hsub. apply elem_of_app. right.
        by apply list_elem_of_further.
    + rewrite length_app, length_reverse.
      rewrite (list_to_set_app_L (visited ++ [current]) news).
      rewrite size_union.
      * rewrite (size_list_to_set news Hnd).
        assert (size (list_to_set visited : gset (gset string))
                ≤ size (list_to_set (visited ++ [current])
                        : gset (gset string))).
        { apply subseteq_size. intros V. rewrite !elem_of_list_to_set.
          rewrite elem_of_app. tauto. }
        simpl in Hlt. lia.
      * intros V HV Hin. apply elem_of_list_to_set in HV, Hin.
        by destruct (Hnew V Hin) as (Hn & _).
Qed.
End convert_loop.

(** ** Runs of the automaton and the subset construction *)

Section runs.
Variable dl : list transition_rule.

Lemma nfa_run_eps_l p p' w q :
  rtc (eps_step dl) p p' → nfa_run dl p' w q → nfa_run dl p w q.
Proof.
  induction 1 as [|x y z Hxy _ IH]; [done|].
  intros Hrun. eapply nfa_run_eps; [exact Hxy | by apply IH].
Qed.

Lemma nfa_run_nil p q : nfa_run dl p [] q ↔ rtc (eps_step dl) p q.
Proof.
  split.
  - intros Hrun. remember [] as w eqn:Hw.
    induction Hrun as [q|p p' w r Hstep _ IH|]; [apply rtc_refl | | done].
    eapply rtc_l; [exact Hstep | by apply IH].
  - intros Hrtc. eapply nfa_run_eps_l; [exact Hrtc | constructor].
Qed.

(** A run on a word gives a run on each of its prefixes. *)
Lemma nfa_run_prefix p u v r :
  nfa_run dl p (u ++ v) r → ∃ r', nfa_run dl p u r'.
Proof.
  intros Hrun. remember (u ++ v) as w eqn:Hw. revert u Hw.
  induction Hrun as [q|q q' w r Hstep _ IH|q c q' w r Hne Hstep _ IH];
    intros u Hw.
  - exists q. destruct u; [constructor | done].
  - destruct (IH u Hw) as [r' Hr']. exists r'. by eapply nfa_run_eps.
  - destruct u as [|c0 u]; simpl in Hw.
    + exists q. constructor.
    + inversion Hw; subst. destruct (IH u eq_refl) as [r' Hr'].
      exists r'. by eapply nfa_run_sym.
Qed.

Lemma eclose_eps_closed sts : eps_closed dl (eclose dl sts).
Proof. intros x d. apply eclose_closed. Qed.

Lemma next_set_eps_closed sts c : eps_closed dl (next_set dl sts c).
Proof. apply eclose_eps_closed. Qed.

(** A run that reads [c :: w] from a closed set goes through the
    successor set of [c]. *)
Lemma nfa_run_cons_inv sts p c w q :
  eps_closed dl sts → p ∈ sts → nfa_run dl p (c :: w) q →
  ∃ p', p' ∈ next_set dl sts c ∧ nfa_run dl p' w q.
Proof.
  intros Hcl Hp Hrun. remember (c :: w) as cw eqn:Hcw.
  induction Hrun as [|p p' w' r Hstep _ IH|p c' p' w' r Hne Hin Hrun _];
    [done| |].
  - apply IH; [|done]. by apply (Hcl p).
  - inversion Hcw; subst c' w'. exists p'. split; [|done].
    apply eclose_subseteq. apply elem_of_find_transitions. by exists p.
Qed.

Lemma elem_of_reach_set sts w q :
  eps_closed dl sts → Forall (λ c, c ≠ epsilon) w →
  q ∈ reach_set dl sts w ↔ ∃ p, p ∈ sts ∧ nfa_run dl p w q.
Proof.
  revert sts. induction w as [|c w IH]; intros sts Hcl Hw; simpl.
  - split.
    + intros Hq. exists q. split; [done | constructor].
    + intros (p & Hp & Hrun). apply nfa_run_nil in Hrun.
      apply (eps_reach_closed dl sts sts); [done | done |]. by exists p.
  - apply Forall_cons in Hw as [Hc Hw].
    rewrite (IH _ (next_set_eps_closed sts c) Hw). split.
    + intros (p' & Hp' & Hrun).
      apply elem_of_eclose in Hp' as (p1 & Hp1 & Hrtc).
      apply elem_of_find_transitions in Hp1 as (p & Hp & Hin).
      exists p. split; [done|].
      eapply nfa_run_sym; [done | exact Hin |].
      by eapply nfa_run_eps_l.
    + intros (p & Hp & Hrun). by eapply nfa_run_cons_inv.
Qed.

Lemma reach_set_empty w : reach_set dl ∅ w = ∅.
Proof.
  induction w as [|c w IH]; simpl; [done|].
  replace (next_set dl ∅ c) with (∅ : gset string); [done|].
  symmetry. apply eclose_empty_iff. apply set_eq. intros q.
  rewrite elem_of_find_transitions. set_solver.
Qed.

Lemma reach_set_app sts u v :
  reach_set dl sts (u ++ v) = reach_set dl (reach_set dl sts u) v.
Proof. revert sts. induction u as [|c u IH]; intros sts; simpl; auto. Qed.

(** [follow] stops after the longest prefix with a non-empty set. *)
Lemma follow_app sts u v :
  reach_set dl sts u ≠ ∅ →
  follow dl sts (u ++ v) = follow dl (reach_set dl sts u) v.
Proof.
  revert sts. induction u as [|c u IH]; intros sts Hne; simpl; [done|].
  simpl in Hne. destruct (decide (next_set dl sts c = ∅)) as [He|Hn].
  - rewrite He, reach_set_empty in Hne. done.
  - by apply IH.
Qed.

Lemma follow_spec sts w :
  sts ≠ ∅ →
  ∃ u v, w = u ++ v ∧ follow dl sts w = reach_set dl sts u
    ∧ reach_set dl sts u ≠ ∅
    ∧ (v = [] ∨ ∃ c v', v = c :: v' ∧ reach_set dl sts (u ++ [c]) = ∅).
Proof.
  revert sts. induction w as [|c w IH]; intros sts Hne; simpl.
  - exists [], []. split_and!; auto.
  - destruct (decide (next_set dl sts c = ∅)) as [He|Hn].
    + exists [], (c :: w). split_and!; [done..|]. right.
      exists c, w. by split.
    + destruct (IH _ Hn) as (u & v & -> & Hf & Hr & Hv).
      exists (c :: u), v. split_and!; done.
Qed.
End runs.

(** ** The acceptance engine *)

Lemma transition_Some dl state symbol dest :
  transition dl state symbol = Some dest → (state, symbol, dest) ∈ dl.
Proof.
  induction dl as [|[[o s] d] dl IH]; simpl; [done|].
  destruct (bool_decide (o = state) && bool_decide (s = symbol)) eqn:Hc.
  - apply andb_true_iff in Hc as [Ho Hs].
    apply bool_decide_eq_true in Ho, Hs. subst.
    intros [= ->]. apply list_elem_of_here.
  - intros Hrec. apply list_elem_of_further. by apply IH.
Qed.

Lemma transition_None dl state symbol :
  transition dl state symbol = None ↔ ∀ dest, (state, symbol, dest) ∉ dl.
Proof.
  induction dl as [|[[o s] d] dl IH]; simpl.
  - split; [|done]. intros _ dest Hin. by apply elem_of_nil in Hin.
  - destruct (bool_decide (o = state) && bool_decide (s = symbol)) eqn:Hc.
    + apply andb_true_iff in Hc as [Ho Hs].
      apply bool_decide_eq_true in Ho, Hs. subst. split; [done|].
      intros Hno. destruct (Hno d). apply list_elem_of_here.
    + rewrite IH. split.
      * intros Hno dest Hin. apply elem_of_cons in Hin as [Heq|Hin].
        -- inversion Heq; subst.
           by rewrite !bool_decide_eq_true_2 in Hc.
        -- by apply (Hno dest).
      * intros Hno dest Hin. apply (Hno dest). by apply list_elem_of_further.
Qed.

Lemma process_fold_lookup a words (results : gmap string verdict) word :
  fold_left (λ results word, <[word := classify a word]> results)
            words results !! word
  = if decide (word ∈ words) then Some (classify a word)
    else results !! word.
Proof.
  revert results.
  induction words as [|w words IH]; intros results; cbn [fold_left].
  - rewrite decide_False; [done|]. apply not_elem_of_nil.
  - rewrite IH. destruct (decide (word ∈ words)) as [Hin|Hnin].
    + rewrite decide_True; [done|]. by apply list_elem_of_further.
    + destruct (decide (word = w)) as [->|Hne].
      * rewrite decide_True by apply list_elem_of_here.
        apply lookup_insert_eq.
      * rewrite decide_False.
        -- by apply lookup_insert_ne.
        -- rewrite elem_of_cons. tauto.
Qed.

(** Each word of the list is mapped to its own verdict, whatever else is
    in the list. *)
Lemma process_lookup a words word :
  process a words !! word
  = if decide (word ∈ words) then Some (classify a word) else None.
Proof. unfold process. by rewrite process_fold_lookup, lookup_empty. Qed.

Lemma is_valid_word_spec alph word :
  is_valid_word alph word = true ↔ Forall (λ char, char ∈ alph) (chars word).
Proof.
  unfold is_valid_word. rewrite forallb_forall, Forall_forall.
  split; intros Hall char Hin.
  - apply list_elem_of_In in Hin. apply Hall in Hin.
    by apply bool_decide_eq_true in Hin.
  - apply bool_decide_eq_true. apply Hall. by apply list_elem_of_In.
Qed.

(** ** The acceptance engine on a converted automaton *)

Section dfa.
Variable a : automaton.
Variable visited : list (gset string).
Variable nd : list transition_rule.

Hypothesis Hplain : ∀ q, q ∈ universe a → q ≠ EmptyString ∧ comma_free q.
Hypothesis Hexp :
  ∀ V, V ∈ visited → expanded (delta a) (alphabet a) visited nd V.
Hypothesis Hedge :
  ∀ e, e ∈ nd → edge_ok (delta a) (alphabet a) visited e.
Hypothesis Hgood : ∀ V, V ∈ visited → V ≠ ∅ ∧ V ⊆ universe a.

Lemma visited_name_inj V W :
  V ∈ visited → W ∈ visited → state_to_str V = state_to_str W → V = W.
Proof.
  intros HV HW Heq. destruct (Hgood V HV) as [HVn HVs].
  destruct (Hgood W HW) as [HWn HWs].
  apply state_to_str_inj; [done | done | | | done].
  - intros q Hq. by apply Hplain, HVs.
  - intros q Hq. by apply Hplain, HWs.
Qed.

Lemma visited_name_nonempty V : V ∈ visited → state_to_str V ≠ EmptyString.
Proof.
  intros HV. destruct (Hgood V HV) as [HVn HVs].
  apply state_to_str_nonempty; [done|]. intros q Hq. by apply Hplain, HVs.
Qed.

(** The output has one move per set and symbol: to the successor set,
    when it is not empty. *)
Lemma transition_dfa V symbol :
  V ∈ visited → symbol ∈ alphabet a →
  transition nd (state_to_str V) symbol
  = if decide (next_set (delta a) V symbol = ∅) then None
    else Some (state_to_str (next_set (delta a) V symbol)).
Proof.
  intros HV Hs.
  assert (Hmatch : ∀ dest, (state_to_str V, symbol, dest) ∈ nd →
            next_set (delta a) V symbol ≠ ∅
            ∧ dest = state_to_str (next_set (delta a) V symbol)).
  { intros dest Hin.
    destruct (Hedge _ Hin) as (W & s & HW & _ & Hne & Heq).
    inversion Heq as [[Hname Hsym Hdest]]. subst s.
    apply visited_name_inj in Hname; [|done..]. by subst W. }
  destruct (decide (next_set (delta a) V symbol = ∅)) as [He|Hne].
  - apply transition_None. intros dest Hin.
    by destruct (Hmatch dest Hin).
  - destruct (transition nd (state_to_str V) symbol) as [dest|] eqn:Ht.
    + apply transition_Some in Ht. by destruct (Hmatch dest Ht) as [_ ->].
    + destruct (Hexp V HV symbol Hs Hne) as [_ Hin].
      by eapply transition_None in Ht.
Qed.

Lemma walk_dfa V w :
  V ∈ visited → Forall (λ c, c ∈ alphabet a) w →
  walk nd (state_to_str V) w = state_to_str (follow (delta a) V w)
  ∧ follow (delta a) V w ∈ visited.
Proof.
  revert V. induction w as [|c w IH]; intros V HV Hw; simpl; [done|].
  apply Forall_cons in Hw as [Hc Hw].
  rewrite (transition_dfa V c HV Hc).
  destruct (decide (next_set (delta a) V c = ∅)) as [He|Hne]; [done|].
  destruct (Hexp V HV c Hc Hne) as [Hin _].
  pose proof (visited_name_nonempty _ Hin) as Hname.
  simpl. destruct (state_to_str (next_set (delta a) V c)) eqn:Hn; [done|].
  rewrite <- Hn. by apply IH.
Qed.

Lemma final_dfa V :
  V ∈ visited →
  state_to_str V
    ∈ state_to_str <$> filter (λ state_set, has_final (final_states a) state_set)
                              visited
  ↔ ∃ q, q ∈ V ∧ q ∈ final_states a.
Proof.
  intros HV. rewrite <- has_final_spec, list_elem_of_fmap. split.
  - intros (W & Hname & HW). apply list_elem_of_filter in HW as [Hf HW].
    apply visited_name_inj in Hname; [|done..]. subst W.
    by apply Is_true_true.
  - intros Hf. exists V. split; [done|]. apply list_elem_of_filter.
    split; [by apply Is_true_true | done].
Qed.
End dfa.

(** ** The conversion as a whole *)

Section conversion.
Variable a : automaton.

Lemma universe_dests o s d : (o, s, d) ∈ delta a → d ∈ universe a.
Proof.
  intros Hin. apply elem_of_union_r, elem_of_list_to_set.
  apply list_elem_of_fmap. by exists (o, s, d).
Qed.

Lemma size_universe : size (universe a) ≤ S (length (delta a)).
Proof.
  unfold universe. rewrite size_union_alt, size_singleton.
  assert (size (list_to_set (delta a).*2 ∖ {[initial_state a]} : gset string)
          ≤ length (delta a)); [|lia].
  etrans; [apply (subseteq_size _ (list_to_set (delta a).*2)); set_solver|].
  etrans; [apply size_list_to_set_length|]. by rewrite length_fmap.
Qed.

Lemma start_set_good : start_set a ≠ ∅ ∧ start_set a ⊆ universe a.
Proof.
  unfold start_set. split.
  - rewrite eclose_empty_iff. set_solver.
  - intros q Hq. apply elem_of_eclose in Hq.
    apply (eps_reach_closed (delta a) (universe a)) in Hq; [done | |].
    + unfold universe. set_solver.
    + intros x d _ Hstep. by eapply universe_dests.
Qed.

(** The exploration stops, and its final lists hold the first set, the
    successors of every set they hold, and exactly the rules of these
    sets. *)
Lemma convert_explore_spec :
  ∃ visited nd,
    convert_explore a = Some (start_set a, visited, nd)
    ∧ start_set a ∈ visited
    ∧ (∀ V, V ∈ visited → expanded (delta a) (alphabet a) visited nd V)
    ∧ (∀ e, e ∈ nd → edge_ok (delta a) (alphabet a) visited e)
    ∧ (∀ V, V ∈ visited → V ≠ ∅ ∧ V ⊆ universe a).
Proof.
  unfold convert_explore. rewrite epsilon_closure_eclose.
  cbn [mbind option_bind]. fold (start_set a).
  destruct (convert_loop_terminates (delta a) (alphabet a) (universe a)
              universe_dests (convert_fuel (delta a)) [start_set a] [] [])
    as [[visited nd] Hrun].
  { intros V HV. apply list_elem_of_singleton in HV. subst V.
    apply start_set_good. }
  { unfold convert_fuel.
    pose proof (Nat.pow_le_mono_r 2 _ _ (ltac:(lia)) size_universe).
    simpl length. lia. }
  rewrite Hrun. exists visited, nd. split; [done|].
  apply (convert_loop_sound _ _ _ universe_dests) in Hrun
    as (H1 & H2 & H3 & H4).
  - split_and!; [|done..]. apply H4, list_elem_of_here.
  - intros V HV. by apply elem_of_nil in HV.
  - intros e He. by apply elem_of_nil in He.
  - intros V HV. apply list_elem_of_singleton in HV. subst V.
    apply start_set_good.
Qed.

Lemma elem_of_reach_start w q :
  Forall (λ c, c ≠ epsilon) w →
  q ∈ reach_set (delta a) (start_set a) w
  ↔ nfa_run (delta a) (initial_state a) w q.
Proof.
  intros Hw. rewrite elem_of_reach_set; [|apply eclose_eps_closed|done].
  split.
  - intros (p & Hp & Hrun). apply elem_of_eclose in Hp as (p0 & Hp0 & Hrtc).
    apply elem_of_singleton in Hp0. subst p0. by eapply nfa_run_eps_l.
  - intros Hrun. exists (initial_state a). split; [|done].
    apply eclose_subseteq. by apply elem_of_singleton.
Qed.
End conversion.

(** * The specified properties *)

(** ** Conversion followed by acceptance *)

Lemma well_formed_universe a :
  well_formed a → plain_names (states a) →
  ∀ q, q ∈ universe a → q ≠ EmptyString ∧ comma_free q.
Proof.
  intros (Hinit & _ & Hdelta & _) Hplain q Hq.
  unfold plain_names in Hplain. rewrite Forall_forall in Hplain.
  apply Hplain. apply elem_of_union in Hq as [Hq|Hq].
  - apply elem_of_singleton in Hq. by subst q.
  - apply elem_of_list_to_set, list_elem_of_fmap in Hq as (t & -> & Ht).
    rewrite Forall_forall in Hdelta. by destruct (Hdelta t Ht) as (_ & ? & _).
Qed.

(** The verdict of the converted automaton on a word of the alphabet:
    it is that of the set of states reached by the longest prefix of the
    word that the original automaton can read. *)
Lemma convert_classify (a dfa : automaton) (word : string) :
  well_formed a → plain_names (states a) →
  is_valid_word (alphabet a) word = true →
  convert_to_dfa a = Some dfa →
  classify dfa word = ACEITA
  ↔ ∃ q, q ∈ follow (delta a) (start_set a) (chars word)
         ∧ q ∈ final_states a.
Proof.
  intros Hwf Hnames Hvalid Hconv.
  pose proof (well_formed_universe a Hwf Hnames) as Hplain.
  destruct (convert_explore_spec a)
    as (visited & nd & Hex & Hstart & Hexp & Hedge & Hgood).
  unfold convert_to_dfa in Hconv. rewrite Hex in Hconv.
  cbn [mbind option_bind] in Hconv. inversion Hconv; subst dfa; clear Hconv.
  unfold classify. cbn [alphabet delta initial_state final_states].
  rewrite Hvalid. cbn [negb].
  apply is_valid_word_spec in Hvalid.
  destruct (walk_dfa a visited nd Hplain Hexp Hedge Hgood
              (start_set a) (chars word) Hstart Hvalid) as [-> Hin].
  rewrite <- (final_dfa a visited Hplain Hgood _ Hin).
  destruct (bool_decide _) eqn:Hb.
  - apply bool_decide_eq_true in Hb. tauto.
  - apply bool_decide_eq_false in Hb. split; [done | tauto].
Qed.

Lemma valid_symbols_not_epsilon (a : automaton) (w : list string) :
  epsilon ∉ alphabet a → Forall (λ c, c ∈ alphabet a) w →
  Forall (λ c, c ≠ epsilon) w.
Proof.
  intros Heps Hw. eapply Forall_impl; [exact Hw|]. by intros c Hc ->.
Qed.

(** The set [follow] stops at is that of the longest readable prefix. *)
Lemma follow_longest_prefix (a : automaton) (w : list string) :
  epsilon ∉ alphabet a → Forall (λ c, c ∈ alphabet a) w →
  (∃ q, q ∈ follow (delta a) (start_set a) w ∧ q ∈ final_states a)
  ↔ ∃ u v, w = u ++ v ∧ nfa_accepts a u
      ∧ (v = [] ∨ ∃ c v', v = c :: v' ∧ ¬ nfa_reads a (u ++ [c])).
Proof.
  intros Heps Hw. split.
  - intros (q & Hq & Hf).
    destruct (follow_spec (delta a) (start_set a) w)
      as (u & v & -> & Hfollow & Hne & Hv); [apply start_set_good|].
    apply Forall_app in Hw as [Hu Hv'].
    exists u, v. split; [done|]. split.
    + exists q. split; [|done]. rewrite Hfollow in Hq.
      apply elem_of_reach_start in Hq; [done|].
      by eapply valid_symbols_not_epsilon.
    + destruct Hv as [->|(c & v' & -> & Hempty)]; [by left|right].
      exists c, v'. split; [done|]. intros (r & Hrun).
      apply elem_of_reach_start in Hrun.
      * rewrite Hempty in Hrun. set_solver.
      * eapply valid_symbols_not_epsilon; [done|].
        apply Forall_app. split; [done|].
        apply Forall_cons in Hv' as [Hc _]. by apply Forall_singleton.
  - intros (u & v & -> & (r & Hrun & Hf) & Hv).
    apply Forall_app in Hw as [Hu Hv'].
    pose proof (valid_symbols_not_epsilon a u Heps Hu) as Hune.
    apply elem_of_reach_start in Hrun; [|done].
    exists r. split; [|done].
    rewrite follow_app by set_solver.
    destruct Hv as [->|(c & v' & -> & Hno)]; [done|].
    simpl. rewrite decide_True; [done|].
    apply set_eq. intros q. split; [|set_solver]. intros Hq. exfalso.
    apply Hno. exists q. apply elem_of_reach_start.
    + eapply valid_symbols_not_epsilon; [done|].
      apply Forall_app. split; [done|].
      apply Forall_cons in Hv' as [Hc _]. by apply Forall_singleton.
    + by rewrite reach_set_app.
Qed.

(** C1 (as amended).  For a well-formed automaton whose state names are
    non-empty and comma-free, and a word over the alphabet, the converted
    automaton exists and [process] maps the word to ACEITA exactly when the
    original automaton has an accepting run on the longest prefix of the
    word that it can read at all; when it can read the whole word, that is
    an accepting run on the word. *)
Theorem convert_process_longest_readable_prefix
    (a : automaton) (words : list string) (word : string) :
  well_formed a → plain_names (states a) →
  word ∈ words → is_valid_word (alphabet a) word = true →
  ∃ dfa, convert_to_dfa a = Some dfa
    ∧ (process dfa words !! word = Some ACEITA
       ↔ ∃ u v, chars word = u ++ v ∧ nfa_accepts a u
           ∧ (v = [] ∨ ∃ c v', v = c :: v' ∧ ¬ nfa_reads a (u ++ [c])))
    ∧ (nfa_reads a (chars word) →
       (process dfa words !! word = Some ACEITA
        ↔ nfa_accepts a (chars word))).
Proof.
  intros Hwf Hnames Hin Hvalid.
  destruct (convert_explore_spec a) as (visited & nd & Hex & _).
  assert (Hconv : ∃ dfa, convert_to_dfa a = Some dfa).
  { unfold convert_to_dfa. rewrite Hex. by eexists. }
  destruct Hconv as [dfa Hconv]. exists dfa. split; [done|].
  assert (Heps : epsilon ∉ alphabet a) by (by destruct Hwf as (_ & _ & _ & ?)).
  assert (Hiff : process dfa words !! word = Some ACEITA
                 ↔ ∃ u v, chars word = u ++ v ∧ nfa_accepts a u
                     ∧ (v = [] ∨ ∃ c v', v = c :: v'
                                   ∧ ¬ nfa_reads a (u ++ [c]))).
  { rewrite process_lookup, decide_True by done.
    rewrite <- follow_longest_prefix;
      [|done | by apply is_valid_word_spec].
    rewrite <- (convert_classify a dfa word) by done.
    split; [by intros [= ->] | by intros ->]. }
  split; [done|].
  intros Hreads. rewrite Hiff. split.
  - intros (u & v & Hw & Hacc & [->|(c & v' & -> & Hno)]).
    + by rewrite Hw, app_nil_r.
    + exfalso. apply Hno. destruct Hreads as [r Hrun]. rewrite Hw in Hrun.
      apply (nfa_run_prefix _ _ (u ++ [c]) v' r).
      by rewrite <- app_assoc.
  - intros Hacc. exists (chars word), []. rewrite app_nil_r. auto.
Qed.

(** The theorem at the automaton [eps_nfa] and the word "a". *)
Lemma convert_process_longest_readable_prefix_witness :
  well_formed eps_nfa ∧ plain_names (states eps_nfa)
  ∧ "a" ∈ ["a"; "aa"] ∧ is_valid_word (alphabet eps_nfa) "a" = true
  ∧ ∃ dfa, convert_to_dfa eps_nfa = Some dfa
      ∧ (process dfa ["a"; "aa"] !! "a" = Some ACEITA
         ↔ ∃ u v, chars "a" = u ++ v ∧ nfa_accepts eps_nfa u
             ∧ (v = [] ∨ ∃ c v', v = c :: v'
                           ∧ ¬ nfa_reads eps_nfa (u ++ [c])))
      ∧ (nfa_reads eps_nfa (chars "a") →
         (process dfa ["a"; "aa"] !! "a" = Some ACEITA
          ↔ nfa_accepts eps_nfa (chars "a"))).
Proof.
  assert (H1 : well_formed eps_nfa)
    by decide_by_computation.
  assert (H2 : plain_names (states eps_nfa))
    by decide_by_computation.
  assert (H3 : "a" ∈ ["a"; "aa"])
    by decide_by_computation.
  assert (H4 : is_valid_word (alphabet eps_nfa) "a" = true) by reflexivity.
  split_and!; [done..|].
  exact (convert_process_longest_readable_prefix eps_nfa ["a"; "aa"] "a"
           H1 H2 H3 H4).
Defined.

(** C1 (as stated) fails: the converted automaton has no move from [q2], so
    [process] stops there on the second symbol of "aa" and accepts, while
    the original automaton has no run on "aa" at all. *)
Lemma convert_process_accepts_unreadable_word :
  well_formed eps_nfa
  ∧ is_valid_word (alphabet eps_nfa) "aa" = true
  ∧ convert_to_dfa eps_nfa = Some eps_dfa
  ∧ process eps_dfa ["aa"] !! "aa" = Some ACEITA
  ∧ ¬ nfa_accepts eps_nfa (chars "aa").
Proof.
  split_and!.
  - decide_by_computation.
  - reflexivity.
  - vm_compute. reflexivity.
  - vm_compute. reflexivity.
  - intros (r & Hrun & _). apply elem_of_reach_start in Hrun.
    + assert (He : reach_set (delta eps_nfa) (start_set eps_nfa) (chars "aa")
                   = ∅) by (vm_compute; reflexivity).
      rewrite He in Hrun. by apply not_elem_of_empty in Hrun.
    + decide_by_computation.
Qed.

(** ** The acceptance engine on any automaton *)

Lemma transition_first_rule dl state symbol :
  transition dl state symbol = (λ t : transition_rule, t.2) <$> first_rule dl state symbol.
Proof.
  unfold first_rule. induction dl as [|[[o s] d] dl IH]; simpl; [done|].
  by destruct (bool_decide (o = state) && bool_decide (s = symbol)).
Qed.

(** When no rule leads to the empty name, the engine is the first-match
    walk of the specification. *)
Lemma walk_first_match dl state symbols :
  (∀ t, t ∈ dl → t.2 ≠ EmptyString) →
  walk dl state symbols = first_match_walk dl state symbols.
Proof.
  intros Hne. revert state.
  induction symbols as [|c w IH]; intros state; simpl; [done|].
  rewrite transition_first_rule.
  destruct (first_rule dl state c) as [t|] eqn:Hf; simpl; [|done].
  assert (Ht : t.2 ≠ EmptyString).
  { apply Hne. unfold first_rule in Hf. apply find_some in Hf as [Hin _].
    by apply list_elem_of_In. }
  destruct (t.2) eqn:Hd; [done|]. apply IH.
Qed.

Lemma classify_first_match a word :
  (∀ t, t ∈ delta a → t.2 ≠ EmptyString) →
  is_valid_word (alphabet a) word = true →
  classify a word = first_match_verdict a word.
Proof.
  intros Hne Hvalid. unfold classify, first_match_verdict.
  rewrite Hvalid. simpl. by rewrite walk_first_match.
Qed.

(** C2 (code and claim differ).  The rule from [q] on [a] to the state
    with the empty name matches the state [q] and the symbol [a], so the
    walk of the claim moves to that accepting state; the engine treats the
    empty name returned by [transition] as no rule at all, stops in [q] and
    rejects. *)
Theorem process_stops_on_empty_destination :
  is_valid_word (alphabet empty_name_nfa) "a" = true
  ∧ first_rule (delta empty_name_nfa) "q" "a" = Some ("q", "a", EmptyString)
  ∧ first_match_verdict empty_name_nfa "a" = ACEITA
  ∧ process empty_name_nfa ["a"] !! "a" = Some REJEITA.
Proof. split_and!; vm_compute; reflexivity. Qed.

(** *** The characters of a word *)

Lemma concat_empty_cons (x : string) (xs : list string) :
  String.concat EmptyString (x :: xs)
  = String.append x (String.concat EmptyString xs).
Proof.
  destruct xs as [|y xs]; simpl; [|done].
  induction x as [|c x IH]; [done | exact (f_equal (String c) IH)].
Qed.

Lemma chars_head c word :
  ∃ k rest, chars (String c word) = String c k :: rest.
Proof.
  simpl. destruct (chars word) as [|char rest]; [by eexists _, _|].
  destruct (continues word); by eexists _, _.
Qed.

(** Joining the characters of a word gives the word back. *)
Lemma chars_concat word : String.concat EmptyString (chars word) = word.
Proof.
  induction word as [|c word IH]; [done|]. simpl.
  destruct (chars word) as [|char rest] eqn:Hch.
  - simpl in IH. by subst word.
  - rewrite concat_empty_cons in IH.
    destruct (continues word); rewrite !concat_empty_cons, <- IH;
      reflexivity.
Qed.

(** Each character is a byte followed by continuation bytes. *)
Lemma chars_one_char word : Forall one_char (chars word).
Proof.
  induction word as [|c word IH]; [constructor|]. simpl.
  destruct (chars word) as [|char rest] eqn:Hch.
  - by apply Forall_singleton.
  - apply Forall_cons in IH as [Hchar Hrest].
    destruct (continues word) eqn:Hcont.
    + apply Forall_cons. split; [|done].
      destruct word as [|c' word]; [done|].
      destruct (chars_head c' word) as (k & rest' & Heq).
      rewrite Hch in Heq. inversion Heq; subst char rest'.
      simpl in *. by rewrite Hcont.
    + apply Forall_cons. split; [done|]. by apply Forall_cons.
Qed.

(** Each character but the first begins with a byte that is not a
    continuation byte. *)
Lemma chars_starts word : Forall starts_char (tail (chars word)).
Proof.
  induction word as [|c word IH]; [constructor|]. simpl.
  destruct (chars word) as [|char rest] eqn:Hch; [constructor|].
  destruct (continues word) eqn:Hcont; [done|]. simpl.
  apply Forall_cons. split; [|done].
  destruct word as [|c' word]; [done|].
  destruct (chars_head c' word) as (k & rest' & Heq).
  rewrite Hch in Heq. inversion Heq; subst char rest'. done.
Qed.

Lemma chars_group c k rest :
  forallb is_continuation (list_ascii_of_string k) = true →
  continues rest = false →
  chars (String c (String.append k rest)) = String c k :: chars rest.
Proof.
  intros Hk Hrest. revert c.
  induction k as [|c1 k IH]; intros c.
  - change (chars (String c rest) = String c EmptyString :: chars rest).
    simpl. destruct (chars rest); [done|]. by rewrite Hrest.
  - simpl in Hk. apply andb_true_iff in Hk as [Hc1 Hk].
    change (chars (String c (String.append (String c1 k) rest)))
      with (match chars (String c1 (String.append k rest)) with
            | char :: rest' =>
              if continues (String c1 (String.append k rest))
              then String c char :: rest'
              else String c EmptyString :: char :: rest'
            | [] => [String c EmptyString]
            end).
    rewrite (IH Hk c1). simpl. by rewrite Hc1.
Qed.

(** [chars] is the only way to cut a word into such pieces. *)
Lemma chars_unique (l : list string) :
  Forall one_char l → Forall starts_char (tail l) →
  chars (String.concat EmptyString l) = l.
Proof.
  induction l as [|char l IH]; intros Hone Hstart; [done|].
  apply Forall_cons in Hone as [Hchar Hone]. simpl in Hstart.
  rewrite concat_empty_cons.
  destruct char as [|c k]; [done|]. simpl in Hchar.
  change (String.append (String c k) (String.concat EmptyString l))
    with (String c (String.append k (String.concat EmptyString l))).
  rewrite chars_group; [|done|].
  - f_equal. apply IH; [done|]. destruct l; [constructor|].
    apply Forall_cons in Hstart as [_ ?]. done.
  - destruct l as [|char' l]; [done|].
    apply Forall_cons in Hstart as [Hc' _]. rewrite concat_empty_cons.
    by destruct char'.
Qed.

(** The character U+20AC, three bytes long, is one character. *)
Example chars_three_bytes :
  chars (String.append "a" (String.append (utf8 [226; 130; 172]) "b"))
  = ["a"; utf8 [226; 130; 172]; "b"].
Proof. reflexivity. Qed.

(** C6.  A word of the list is INVALIDA exactly when one of its characters
    is not in the alphabet; the empty word never is; and the INVALIDA
    verdict is the same for all automata with the same alphabet.  The
    characters of a word are its code points: joined they give the word,
    each is a byte followed by continuation bytes, and each but the first
    begins with a byte that is not a continuation byte. *)
Theorem process_invalid_iff (a : automaton) (words : list string)
    (word : string) (sts' : list string) (dl' : list transition_rule)
    (initial' : string) (finals' : list string) :
  (process a words !! word = Some INVALIDA
   ↔ word ∈ words ∧ ∃ char, char ∈ chars word ∧ char ∉ alphabet a)
  ∧ process a words !! EmptyString ≠ Some INVALIDA
  ∧ (process a words !! word = Some INVALIDA
     ↔ process (Automaton sts' (alphabet a) dl' initial' finals') words
         !! word = Some INVALIDA)
  ∧ String.concat EmptyString (chars word) = word
  ∧ Forall one_char (chars word)
  ∧ Forall starts_char (tail (chars word)).
Proof.
  assert (Hinv : ∀ b w, classify b w = INVALIDA
                        ↔ ∃ char, char ∈ chars w ∧ char ∉ alphabet b).
  { intros b w. unfold classify.
    destruct (is_valid_word (alphabet b) w) eqn:Hv; simpl.
    - split.
      + by destruct (bool_decide _).
      + intros (char & Hin & Hnot). apply is_valid_word_spec in Hv.
        rewrite Forall_forall in Hv. by apply Hv in Hin.
    - split; [intros _|done].
      apply not_true_iff_false in Hv. rewrite is_valid_word_spec in Hv.
      apply not_Forall_Exists in Hv; [|apply _].
      apply Exists_exists in Hv as (char & Hin & Hnot). by exists char. }
  assert (Hlook : ∀ b w, process b words !! w = Some INVALIDA
                         ↔ w ∈ words ∧ classify b w = INVALIDA).
  { intros b w. rewrite process_lookup.
    destruct (decide (w ∈ words)) as [Hin|Hnin].
    - split; [intros [= ->]; done | intros [_ ->]; done].
    - split; [done | tauto]. }
  split_and!.
  - by rewrite Hlook, Hinv.
  - rewrite Hlook, Hinv. intros (_ & char & Hin & _).
    by apply elem_of_nil in Hin.
  - by rewrite !Hlook, !Hinv.
  - apply chars_concat.
  - apply chars_one_char.
  - apply chars_starts.
Qed.

(** ** The fields of the converted automaton *)

(** C3.  The converted automaton exists; its initial state is the name of
    the closure of the initial state, its accepting names are the names of
    the visited sets that hold an accepting state, its states are the names
    of the visited sets, and its alphabet is that of the input. *)
Theorem convert_to_dfa_fields (a : automaton) :
  ∃ start visited new_delta dfa,
    epsilon_closure (delta a) {[initial_state a]} = Some start
    ∧ convert_explore a = Some (start, visited, new_delta)
    ∧ convert_to_dfa a = Some dfa
    ∧ initial_state dfa = state_to_str start
    ∧ (∀ name, name ∈ final_states dfa
         ↔ ∃ V, V ∈ visited ∧ name = state_to_str V
             ∧ ∃ q, q ∈ V ∧ q ∈ final_states a)
    ∧ states dfa = state_to_str <$> visited
    ∧ alphabet dfa = alphabet a.
Proof.
  destruct (convert_explore_spec a) as (visited & nd & Hex & _).
  exists (start_set a), visited, nd. eexists. split_and!.
  - apply epsilon_closure_eclose.
  - done.
  - unfold convert_to_dfa. rewrite Hex. reflexivity.
  - done.
  - intros name. cbn [final_states]. rewrite list_elem_of_fmap. split.
    + intros (V & -> & HV). apply list_elem_of_filter in HV as [Hf HV].
      exists V. split_and!; [done..|].
      by apply has_final_spec, Is_true_true.
    + intros (V & HV & -> & Hq). exists V. split; [done|].
      apply list_elem_of_filter. split; [|done].
      by apply Is_true_true, has_final_spec.
  - done.
  - done.
Qed.

(** C4 (code and claim differ).  The set [{q1}] is appended to [visited]
    when it is discovered and again when it is popped, so its name occurs
    twice among the states and the accepting states of the output. *)
Theorem convert_to_dfa_repeats_names :
  well_formed one_move_nfa
  ∧ convert_explore one_move_nfa
    = Some ({["q0"]}, [{["q0"]}; {["q1"]}; {["q1"]}], [("q0", "a", "q1")])
  ∧ convert_to_dfa one_move_nfa
    = Some (Automaton ["q0"; "q1"; "q1"] ["a"] [("q0", "a", "q1")]
                      "q0" ["q1"; "q1"]).
Proof.
  split_and!.
  - decide_by_computation.
  - vm_compute. reflexivity.
  - vm_compute. reflexivity.
Qed.

(** ** Naming, reachable sets and closures *)

(** C7 (as amended).  On non-empty sets of comma-free names the naming is
    injective, and the name does not depend on the order in which the set
    is enumerated. *)
Theorem state_to_str_injective (s t : gset string) (enum1 enum2 : list string) :
  s ≠ ∅ → t ≠ ∅ → (∀ q, q ∈ s ∪ t → comma_free q) →
  enum1 ≡ₚ elements s → enum2 ≡ₚ elements s →
  (s ≠ t → state_to_str s ≠ state_to_str t)
  ∧ state_to_str_from enum1 = state_to_str_from enum2.
Proof.
  intros Hs Ht Hfree H1 H2. split.
  - intros Hne Heq. apply Hne. apply state_to_str_inj; [done | done | | | done].
    + intros q Hq. apply Hfree. set_solver.
    + intros q Hq. apply Hfree. set_solver.
  - by rewrite (state_to_str_enum s enum1), (state_to_str_enum s enum2).
Qed.

(** The theorem at the sets [{q0, q2}] and [{q1}]. *)
Lemma state_to_str_injective_witness :
  ({["q2"; "q0"]} : gset string) ≠ ∅ ∧ ({["q1"]} : gset string) ≠ ∅
  ∧ (({["q2"; "q0"]} : gset string) ≠ {["q1"]} →
     state_to_str {["q2"; "q0"]} ≠ state_to_str {["q1"]})
  ∧ state_to_str_from ["q2"; "q0"] = state_to_str_from ["q0"; "q2"].
Proof.
  assert (H1 : ({["q2"; "q0"]} : gset string) ≠ ∅) by decide_by_computation.
  assert (H2 : ({["q1"]} : gset string) ≠ ∅) by decide_by_computation.
  split_and!; [done..| |];
    apply (state_to_str_injective {["q2"; "q0"]} {["q1"]}
             ["q2"; "q0"] ["q0"; "q2"] H1 H2);
    try decide_by_computation;
    intros q Hq; apply elem_of_union in Hq as [Hq|Hq];
    repeat (apply elem_of_union in Hq as [Hq|Hq]);
    apply elem_of_singleton in Hq; subst q; decide_by_computation.
Defined.

(** C7 (as stated) fails: a name may hold a comma. *)
Lemma state_to_str_collision :
  ({["a,b"]} : gset string) ≠ ∅ ∧ ({["a"; "b"]} : gset string) ≠ ∅
  ∧ ({["a,b"]} : gset string) ≠ {["a"; "b"]}
  ∧ state_to_str {["a,b"]} = state_to_str {["a"; "b"]}.
Proof.
  split_and!; [decide_by_computation.. | vm_compute; reflexivity].
Qed.

(** C8 (as amended).  [find_transitions] returns exactly the destinations
    of the rules whose origin is in the set and whose symbol is the given
    one, whatever the symbol; rules on other symbols, the empty symbol
    included, do not contribute. *)
Theorem find_transitions_exact (dl : list transition_rule)
    (sts : gset string) (symbol dest : string) :
  dest ∈ find_transitions dl sts symbol
  ↔ ∃ origin, origin ∈ sts ∧ (origin, symbol, dest) ∈ dl.
Proof. apply elem_of_find_transitions. Qed.

(** C8 (as stated) fails: asked for the empty symbol, [find_transitions]
    returns the destinations of the empty moves instead of leaving them
    out. *)
Lemma find_transitions_keeps_epsilon :
  find_transitions [("q0", "&", "q1")] {["q0"]} "&" = {["q1"]}
  ∧ ¬ ("q1" ∈ find_transitions [("q0", "&", "q1")] {["q0"]} "&"
       ↔ ∃ origin, origin ∈ ({["q0"]} : gset string)
           ∧ ("q0", "&", "q1") ∈ [("q0", "&", "q1")]
           ∧ "&" ≠ epsilon).
Proof.
  split; [vm_compute; reflexivity|].
  intros [Hl _].
  destruct Hl as (_ & _ & _ & Hne); [|done].
  apply elem_of_find_transitions. exists "q0".
  split; [by apply elem_of_singleton | apply list_elem_of_here].
Qed.

(** C9.  The closure of a closure is that closure. *)
Theorem epsilon_closure_idempotent (dl : list transition_rule)
    (sts : gset string) :
  ∃ closure,
    epsilon_closure dl sts = Some closure
    ∧ epsilon_closure dl closure = Some closure.
Proof.
  exists (eclose dl sts). split; [apply epsilon_closure_eclose|].
  rewrite epsilon_closure_eclose. f_equal. apply eclose_idemp.
Qed.

(** C10.  The two closure loops and the main loop of the conversion stop
    on every automaton, with the fuel the model gives them and with any
    larger fuel, so the three functions return a result. *)
Theorem closures_and_conversion_terminate (a : automaton) (state : string)
    (sts : gset string) (extra : nat) :
  is_Some (closure_loop (closure_fuel (delta a) [state] + extra) (delta a)
                        {[state]} [state])
  ∧ is_Some (closure_loop (closure_fuel (delta a) (elements sts) + extra)
                          (delta a) (list_to_set (elements sts))
                          (reverse (elements sts)))
  ∧ is_Some (convert_loop (convert_fuel (delta a) + extra) (delta a)
                          (alphabet a) ([start_set a], [], []))
  ∧ is_Some (handle_closure state (delta a))
  ∧ is_Some (epsilon_closure (delta a) sts)
  ∧ is_Some (convert_to_dfa a).
Proof.
  assert (Hsize : ∀ closure : gset string,
            size (list_to_set (delta a).*2 ∖ closure : gset string)
            ≤ length (delta a)).
  { intros closure.
    etrans; [apply (subseteq_size _ (list_to_set (delta a).*2)); set_solver|].
    etrans; [apply size_list_to_set_length|]. by rewrite length_fmap. }
  split_and!.
  - apply closure_loop_terminates. unfold closure_fuel.
    specialize (Hsize {[state]}). simpl. lia.
  - apply closure_loop_terminates. unfold closure_fuel.
    specialize (Hsize (list_to_set (elements sts))).
    rewrite length_reverse. lia.
  - apply (convert_loop_terminates _ _ (universe a) (universe_dests a)).
    + intros V HV. apply list_elem_of_singleton in HV. subst V.
      apply start_set_good.
    + unfold convert_fuel.
      pose proof (Nat.pow_le_mono_r 2 _ _ (ltac:(lia)) (size_universe a)).
      simpl length. lia.
  - destruct (handle_closure_spec (delta a) state) as (r & -> & _). by eexists.
  - rewrite epsilon_closure_eclose. by eexists.
  - destruct (convert_explore_spec a) as (visited & nd & Hex & _).
    unfold convert_to_dfa. rewrite Hex. by eexists.
Qed.

(** ** The loader *)

Lemma load_delta_bad sts alph line transitions dl :
  bad_rule sts alph line →
  ∃ e, load_delta sts alph (line :: transitions) dl = inl e.
Proof.
  unfold bad_rule. simpl.
  destruct (split line) as [|o [|s [|d [|x l]]]]; try by eexists.
  intros Hbad.
  destruct (bool_decide (o ∉ sts) || bool_decide (d ∉ sts)) eqn:Hst;
    [by eexists|].
  destruct (bool_decide (s ≠ epsilon) && bool_decide (s ∉ alph)) eqn:Hsym;
    [by eexists|].
  exfalso. apply orb_false_iff in Hst as [Ho Hd].
  apply bool_decide_eq_false in Ho, Hd.
  destruct Hbad as [?|[?|[Hne Hnin]]]; [done..|].
  by rewrite !bool_decide_eq_true_2 in Hsym.
Qed.

Lemma load_delta_good sts alph line transitions dl :
  ¬ bad_rule sts alph line →
  ∃ rule, load_delta sts alph (line :: transitions) dl
          = load_delta sts alph transitions (dl ++ [rule]).
Proof.
  unfold bad_rule. simpl.
  destruct (split line) as [|o [|s [|d [|x l]]]]; try (by intros []).
  intros Hgood.
  destruct (bool_decide (o ∉ sts) || bool_decide (d ∉ sts)) eqn:Hst.
  { exfalso. apply Hgood. apply orb_true_iff in Hst as [Ho|Hd].
    - apply bool_decide_eq_true in Ho. by left.
    - apply bool_decide_eq_true in Hd. right. by left. }
  destruct (bool_decide (s ≠ epsilon) && bool_decide (s ∉ alph)) eqn:Hsym.
  { exfalso. apply Hgood. apply andb_true_iff in Hsym as [H1 H2].
    apply bool_decide_eq_true in H1, H2. right. by right. }
  by eexists.
Qed.

Lemma load_delta_fails sts alph transitions dl :
  (∃ e, load_delta sts alph transitions dl = inl e)
  ↔ ∃ line, line ∈ transitions ∧ bad_rule sts alph line.
Proof.
  revert dl. induction transitions as [|line transitions IH]; intros dl.
  - simpl. split; [by intros [e ?]|].
    intros (line & Hin & _). by apply elem_of_nil in Hin.
  - assert (Hdec : bad_rule sts alph line ∨ ¬ bad_rule sts alph line).
    { unfold bad_rule.
      destruct (split line) as [|o [|s [|d [|x l]]]]; auto.
      destruct (decide (o ∉ sts ∨ d ∉ sts ∨ s ≠ epsilon ∧ s ∉ alph)); auto. }
    destruct Hdec as [Hbad|Hgood].
    + split; [|intros _; by apply load_delta_bad].
      intros _. exists line. split; [apply list_elem_of_here | done].
    + destruct (load_delta_good sts alph line transitions dl Hgood)
        as [rule ->].
      rewrite IH. split.
      * intros (l & Hin & Hbad). exists l.
        split; [by apply list_elem_of_further | done].
      * intros (l & Hin & Hbad). apply elem_of_cons in Hin as [->|Hin];
          [done|]. by exists l.
Qed.

(** The no-break space U+00A0, two bytes long, is white space for [strip]
    and [split] as it is for Python. *)
Example split_no_break_space :
  split (String.append "q0"
           (String.append (utf8 [194; 160])
              (String.append "q1" (utf8 [194; 160]))))
  = ["q0"; "q1"]
  ∧ strip (String.append (utf8 [194; 160])
             (String.append " q0 q1" (utf8 [226; 128; 168])))
    = "q0 q1".
Proof. split; reflexivity. Qed.

Example load_automata_no_break_space :
  load_automata
    ["a"; String.append "q0 q1" (utf8 [194; 160]);
     String.append "q1" (utf8 [194; 160]); "q0";
     String.append "q0" (String.append (utf8 [194; 160]) "a q1")]
  = inr (Automaton ["q0"; "q1"] ["a"] [("q0", "a", "q1")] "q0" ["q1"]).
Proof. reflexivity. Qed.

(** C5 (as amended).  The loader fails exactly when the file has fewer than
    five lines (the four header lines and at least one transition line),
    or an accepting state or the initial state is not in the state list,
    or a transition line is refused: not exactly three tokens, an origin
    or destination that is not a state, or a symbol that is neither the
    empty symbol nor in the alphabet. *)
Theorem load_automata_fails_iff (file_lines : list string) :
  (∃ e, load_automata file_lines = inl e)
  ↔ length file_lines < 5
    ∨ ∃ l0 l1 l2 l3 transitions,
        strip <$> file_lines = l0 :: l1 :: l2 :: l3 :: transitions
        ∧ ((∃ q, q ∈ split l2 ∧ q ∉ split l1)
           ∨ l3 ∉ split l1
           ∨ ∃ line, line ∈ transitions
               ∧ bad_rule (split l1) (split l0) line).
Proof.
  unfold load_automata.
  destruct file_lines as [|r0 [|r1 [|r2 [|r3 [|r4 rest]]]]];
    try (split; [intros _; left; simpl; lia | intros _; by eexists]).
  cbn [fmap list_fmap length].
  set (l0 := strip r0). set (l1 := strip r1). set (l2 := strip r2).
  set (l3 := strip r3). set (ts := strip r4 :: _).
  assert (Hfin : existsb (λ state, bool_decide (state ∉ split l1)) (split l2)
                 = true ↔ ∃ q, q ∈ split l2 ∧ q ∉ split l1).
  { rewrite existsb_exists. split.
    - intros (q & Hin & Hq). exists q. apply bool_decide_eq_true in Hq.
      split; [by apply list_elem_of_In | done].
    - intros (q & Hin & Hq). exists q.
      split; [by apply list_elem_of_In | by apply bool_decide_eq_true]. }
  pose proof (load_delta_fails (split l1) (split l0) ts []) as Hdl.
  split.
  - intros Hfail. right. exists l0, l1, l2, l3, ts. split; [done|].
    revert Hfail.
    destruct (existsb _ (split l2)) eqn:Hf; [left; by apply Hfin|].
    destruct (load_delta (split l1) (split l0) ts []) as [e|dl] eqn:Hld.
    + right. right. apply Hdl. by exists e.
    + destruct (decide (l3 ∉ split l1)) as [Hi|Hi]; [right; by left|].
      rewrite (bool_decide_eq_false_2 _ Hi). by intros [e ?].
  - intros [Hlen|(m0 & m1 & m2 & m3 & ms & Heq & Hbad)]; [simpl in Hlen; lia|].
    inversion Heq; subst m0 m1 m2 m3 ms.
    destruct (existsb _ (split l2)) eqn:Hf; [by eexists|].
    destruct (load_delta (split l1) (split l0) ts []) as [e|dl] eqn:Hld;
      [by eexists|].
    destruct Hbad as [Hq|[Hi|Hl]].
    + apply Hfin in Hq. congruence.
    + rewrite (bool_decide_eq_true_2 _ Hi). by eexists.
    + apply Hdl in Hl as [e He]. congruence.
Qed.

(** C5 (as stated) fails: the four header lines alone, all of them
    consistent, are refused. *)
Lemma load_automata_rejects_four_lines :
  load_automata ["a b"; "q0 q1"; "q1"; "q0"] = inl InsufficientLines
  ∧ ¬ length ["a b"; "q0 q1"; "q1"; "q0"] < 4
  ∧ Forall (λ q, q ∈ split "q0 q1") (split "q1")
  ∧ "q0" ∈ split "q0 q1"
  ∧ drop 4 ["a b"; "q0 q1"; "q1"; "q0"] = [].
Proof.
  split_and!; [reflexivity | simpl; lia | decide_by_computation..
              | reflexivity].
Qed.

(** * Further properties of the closures *)

(** X1.  [epsilon_closure] returns exactly the states reached from a state
    of the given set by zero or more empty moves. *)
Theorem epsilon_closure_reachable (dl : list transition_rule)
    (sts : gset string) :
  ∃ closure,
    epsilon_closure dl sts = Some closure
    ∧ ∀ q, q ∈ closure ↔ ∃ p, p ∈ sts ∧ rtc (eps_step dl) p q.
Proof. apply epsilon_closure_spec. Qed.

(** X2.  The closure holds the given set, and besides it only destinations
    of empty moves. *)
Theorem epsilon_closure_bounds (dl : list transition_rule)
    (sts : gset string) :
  ∃ closure,
    epsilon_closure dl sts = Some closure
    ∧ sts ⊆ closure
    ∧ ∀ q, q ∈ closure → q ∈ sts ∨ ∃ p, (p, epsilon, q) ∈ dl.
Proof.
  exists (eclose dl sts). split_and!.
  - apply epsilon_closure_eclose.
  - apply eclose_subseteq.
  - intros q Hq. apply elem_of_eclose in Hq as (p & Hp & Hrtc).
    apply rtc_inv_r in Hrtc as [->|(p' & _ & Hstep)]; [by left|].
    right. by exists p'.
Qed.

Lemma eclose_union dl (s t : gset string) :
  eclose dl (s ∪ t) = eclose dl s ∪ eclose dl t.
Proof.
  apply set_eq. intros q.
  rewrite elem_of_union, !elem_of_eclose. unfold eps_reach. split.
  - intros (p & Hp & Hrtc). apply elem_of_union in Hp as [Hp|Hp]; eauto.
  - intros [(p & Hp & Hrtc)|(p & Hp & Hrtc)]; exists p;
      (split; [set_solver | done]).
Qed.

(** X3.  The closure of a union is the union of the closures; so the
    closure grows with the set. *)
Theorem epsilon_closure_union (dl : list transition_rule)
    (s t : gset string) :
  ∃ cs ct,
    epsilon_closure dl s = Some cs
    ∧ epsilon_closure dl t = Some ct
    ∧ epsilon_closure dl (s ∪ t) = Some (cs ∪ ct).
Proof.
  exists (eclose dl s), (eclose dl t).
  rewrite !epsilon_closure_eclose. by rewrite eclose_union.
Qed.

Lemma eclose_no_epsilon dl (sts : gset string) :
  Forall (λ t : transition_rule, t.1.2 ≠ epsilon) dl → eclose dl sts = sts.
Proof.
  intros Hno. apply set_eq. intros q. split; [|apply eclose_subseteq].
  intros Hq. apply elem_of_eclose in Hq as (p & Hp & Hrtc).
  destruct Hrtc as [|x y z Hstep _]; [done|].
  rewrite Forall_forall in Hno. by destruct (Hno _ Hstep).
Qed.

(** X4.  Without empty moves the closure of a set is the set itself, and
    the successor set of the converter is the plain set of destinations. *)
Theorem epsilon_closure_no_epsilon (dl : list transition_rule)
    (sts : gset string) (symbol : string) :
  Forall (λ t : transition_rule, t.1.2 ≠ epsilon) dl →
  epsilon_closure dl sts = Some sts
  ∧ next_set dl sts symbol = find_transitions dl sts symbol.
Proof.
  intros Hno. split.
  - by rewrite epsilon_closure_eclose, eclose_no_epsilon.
  - unfold next_set. by apply eclose_no_epsilon.
Qed.

(** The theorem at the rules [q0 -a-> q1], [q1 -b-> q0]. *)
Lemma epsilon_closure_no_epsilon_witness :
  epsilon_closure [("q0", "a", "q1"); ("q1", "b", "q0")] {["q0"; "q1"]}
    = Some {["q0"; "q1"]}
  ∧ next_set [("q0", "a", "q1"); ("q1", "b", "q0")] {["q0"; "q1"]} "a"
    = find_transitions [("q0", "a", "q1"); ("q1", "b", "q0")]
                       {["q0"; "q1"]} "a".
Proof.
  apply (epsilon_closure_no_epsilon
           [("q0", "a", "q1"); ("q1", "b", "q0")] {["q0"; "q1"]} "a").
  decide_by_computation.
Defined.

(** X5.  The closure of a single state, as [handle_closure] computes it, is
    the closure of the one-state set. *)
Theorem handle_closure_singleton (state : string)
    (dl : list transition_rule) :
  handle_closure state dl = epsilon_closure dl {[state]}.
Proof.
  destruct (handle_closure_spec dl state) as (r & -> & Hr).
  rewrite epsilon_closure_eclose. f_equal. apply set_eq. intros q.
  rewrite Hr, elem_of_eclose. unfold eps_reach. split.
  - intros Hrtc. exists state. split; [by apply elem_of_singleton | done].
  - intros (p & Hp & Hrtc). apply elem_of_singleton in Hp. by subst p.
Qed.

(** X6.  The order in which a set is enumerated does not matter to the
    closure, to the set of destinations, or to the test for an accepting
    member. *)
Theorem set_iteration_order_irrelevant (dl : list transition_rule)
    (finals : list string) (sts : gset string) (enum : list string)
    (symbol : string) :
  enum ≡ₚ elements sts →
  epsilon_closure_from dl enum = epsilon_closure dl sts
  ∧ find_transitions_from dl enum symbol = find_transitions dl sts symbol
  ∧ has_final_from finals enum = has_final finals sts.
Proof.
  intros Hperm. split_and!.
  - by apply epsilon_closure_enum.
  - by apply find_transitions_enum.
  - by apply has_final_enum.
Qed.

(** The theorem at the set [{q0, q1, q2}], enumerated backwards. *)
Lemma set_iteration_order_irrelevant_witness :
  epsilon_closure_from [("q0", "&", "q1"); ("q1", "a", "q2")]
                       (reverse (elements ({["q0"; "q1"; "q2"]} : gset string)))
    = epsilon_closure [("q0", "&", "q1"); ("q1", "a", "q2")]
                      {["q0"; "q1"; "q2"]}
  ∧ find_transitions_from [("q0", "&", "q1"); ("q1", "a", "q2")]
                       (reverse (elements ({["q0"; "q1"; "q2"]} : gset string)))
                       "a"
    = find_transitions [("q0", "&", "q1"); ("q1", "a", "q2")]
                       {["q0"; "q1"; "q2"]} "a"
  ∧ has_final_from ["q2"]
                   (reverse (elements ({["q0"; "q1"; "q2"]} : gset string)))
    = has_final ["q2"] {["q0"; "q1"; "q2"]}.
Proof.
  apply (set_iteration_order_irrelevant
           [("q0", "&", "q1"); ("q1", "a", "q2")] ["q2"]
           {["q0"; "q1"; "q2"]}).
  decide_by_computation.
Defined.

(** X7.  The destinations of a union are the union of the destinations,
    and the empty set has none. *)
Theorem find_transitions_union (dl : list transition_rule)
    (s t : gset string) (symbol : string) :
  find_transitions dl (s ∪ t) symbol
    = find_transitions dl s symbol ∪ find_transitions dl t symbol
  ∧ find_transitions dl ∅ symbol = ∅.
Proof.
  split; apply set_eq; intros q;
    rewrite ?elem_of_union, !elem_of_find_transitions.
  - split.
    + intros (o & Ho & Hin). apply elem_of_union in Ho as [Ho|Ho]; eauto.
    + intros [(o & Ho & Hin)|(o & Ho & Hin)]; exists o;
        (split; [set_solver | done]).
  - split; [|set_solver]. intros (o & Ho & _). set_solver.
Qed.

(** * Further properties of the acceptance engine *)

(** X8.  [transition] returns the destination of the first rule of the list
    for the state and the symbol, and nothing exactly when the list has no
    such rule. *)
Theorem transition_first_match (dl : list transition_rule)
    (state symbol dest : string) :
  (transition dl state symbol = Some dest
   ↔ ∃ before after,
       dl = before ++ (state, symbol, dest) :: after
       ∧ ∀ d, (state, symbol, d) ∉ before)
  ∧ (transition dl state symbol = None
     ↔ ∀ d, (state, symbol, d) ∉ dl).
Proof.
  split; [|apply transition_None].
  induction dl as [|[[o s] d] dl IH]; simpl.
  - split; [done|]. intros (before & after & Heq & _). by destruct before.
  - destruct (bool_decide (o = state) && bool_decide (s = symbol)) eqn:Hc.
    + apply andb_true_iff in Hc as [Ho Hs].
      apply bool_decide_eq_true in Ho, Hs. subst o s. split.
      * intros [= ->]. exists [], dl. split; [done|].
        intros d' Hin. by apply elem_of_nil in Hin.
      * intros (before & after & Heq & Hno).
        destruct before as [|t before]; simpl in Heq.
        -- by inversion Heq.
        -- inversion Heq; subst t. destruct (Hno d). apply list_elem_of_here.
    + rewrite IH. split.
      * intros (before & after & -> & Hno).
        exists ((o, s, d) :: before), after. split; [done|].
        intros d' Hin. apply elem_of_cons in Hin as [Heq|Hin].
        -- inversion Heq; subst. by rewrite !bool_decide_eq_true_2 in Hc.
        -- by apply (Hno d').
      * intros (before & after & Heq & Hno).
        destruct before as [|t before]; simpl in Heq.
        -- inversion Heq; subst. by rewrite !bool_decide_eq_true_2 in Hc.
        -- inversion Heq; subst t dl. exists before, after. split; [done|].
           intros d' Hin. apply (Hno d'). by apply list_elem_of_further.
Qed.

(** X9.  [process] gives a verdict to the words of the list and to no
    other word. *)
Theorem process_domain (a : automaton) (words : list string) :
  dom (process a words) = list_to_set words.
Proof.
  apply set_eq. intros w.
  rewrite elem_of_dom, elem_of_list_to_set, process_lookup.
  destruct (decide (w ∈ words)) as [Hin|Hnin].
  - split; [done | by eexists].
  - split; [by intros [? ?] | done].
Qed.

(** X10.  The result does not depend on the order of the word list or on
    words given more than once. *)
Theorem process_word_set (a : automaton) (words words' : list string) :
  (list_to_set words : gset string) = list_to_set words' →
  process a words = process a words'.
Proof.
  intros Heq. apply map_eq. intros w. rewrite !process_lookup.
  assert (Hiff : w ∈ words ↔ w ∈ words').
  { by rewrite <- !(elem_of_list_to_set (C:=gset string)), Heq. }
  destruct (decide (w ∈ words)), (decide (w ∈ words')); tauto.
Qed.

(** The theorem at two lists of the same three words. *)
Lemma process_word_set_witness :
  process eps_nfa ["a"; "aa"; "a"; "b"] = process eps_nfa ["b"; "aa"; "a"].
Proof.
  apply (process_word_set eps_nfa ["a"; "aa"; "a"; "b"] ["b"; "aa"; "a"]).
  decide_by_computation.
Defined.

(** X11.  The empty word is accepted exactly when the initial state is
    accepting, whatever the alphabet and the rules. *)
Theorem process_empty_word (a : automaton) (words : list string) :
  process a words !! EmptyString
  = if decide (EmptyString ∈ words)
    then Some (if bool_decide (initial_state a ∈ final_states a)
               then ACEITA else REJEITA)
    else None.
Proof. by rewrite process_lookup. Qed.

Lemma deterministic_spec dl o s d d' :
  deterministic dl → (o, s, d) ∈ dl → (o, s, d') ∈ dl → d = d'.
Proof.
  unfold deterministic. rewrite Forall_forall. intros Hdet H1 H2.
  specialize (Hdet _ H1). rewrite Forall_forall in Hdet.
  by apply (Hdet _ H2).
Qed.

Lemma transition_deterministic dl state symbol dest :
  deterministic dl →
  transition dl state symbol = Some dest ↔ (state, symbol, dest) ∈ dl.
Proof.
  intros Hdet. split; [apply transition_Some|]. intros Hin.
  destruct (transition dl state symbol) as [d|] eqn:Ht.
  - apply transition_Some in Ht. f_equal. by eapply deterministic_spec.
  - rewrite transition_None in Ht. by destruct (Ht dest).
Qed.

Lemma transition_perm dl dl' state symbol :
  deterministic dl → dl' ≡ₚ dl →
  transition dl' state symbol = transition dl state symbol.
Proof.
  intros Hdet Hperm.
  assert (Hdet' : deterministic dl').
  { unfold deterministic in *. rewrite Forall_forall in *.
    intros t Ht. rewrite Forall_forall. intros t' Ht'.
    rewrite Hperm in Ht, Ht'. specialize (Hdet t Ht).
    rewrite Forall_forall in Hdet. by apply Hdet. }
  destruct (transition dl state symbol) as [d|] eqn:Ht.
  - apply transition_deterministic; [done|]. rewrite Hperm.
    by apply transition_Some.
  - apply transition_None. intros d Hin. rewrite Hperm in Hin.
    rewrite transition_None in Ht. by apply (Ht d).
Qed.

(** X12.  On a deterministic automaton the verdicts do not depend on the
    order in which the rules are listed. *)
Theorem process_rule_order (sts alph : list string)
    (dl dl' : list transition_rule) (initial : string) (finals : list string)
    (words : list string) :
  deterministic dl → dl' ≡ₚ dl →
  process (Automaton sts alph dl' initial finals) words
  = process (Automaton sts alph dl initial finals) words.
Proof.
  intros Hdet Hperm. apply map_eq. intros w. rewrite !process_lookup.
  destruct (decide (w ∈ words)); [|done]. f_equal.
  unfold classify. simpl.
  destruct (is_valid_word alph w); simpl; [|done].
  assert (Hwalk : ∀ symbols state,
            walk dl' state symbols = walk dl state symbols).
  { induction symbols as [|c symbols IH]; intros state; simpl; [done|].
    rewrite (transition_perm dl dl') by done.
    destruct (truthy _); [apply IH | done]. }
  by rewrite Hwalk.
Qed.

(** The theorem at two listings of the rules [q0 -a-> q1], [q1 -a-> q0]. *)
Lemma process_rule_order_witness :
  process (Automaton ["q0"; "q1"] ["a"]
                     [("q1", "a", "q0"); ("q0", "a", "q1")] "q0" ["q1"])
          ["a"; "aa"]
  = process (Automaton ["q0"; "q1"] ["a"]
                       [("q0", "a", "q1"); ("q1", "a", "q0")] "q0" ["q1"])
            ["a"; "aa"].
Proof.
  apply (process_rule_order ["q0"; "q1"] ["a"]
           [("q0", "a", "q1"); ("q1", "a", "q0")]
           [("q1", "a", "q0"); ("q0", "a", "q1")]);
    decide_by_computation.
Defined.

Lemma walk_in_states dl (sts : list string) state symbols :
  state ∈ sts → Forall (λ t : transition_rule, t.2 ∈ sts) dl →
  walk dl state symbols ∈ sts.
Proof.
  intros Hstate Hdl. revert state Hstate.
  induction symbols as [|c symbols IH]; intros state Hstate; simpl; [done|].
  destruct (transition dl state c) as [d|] eqn:Ht; simpl; [|done].
  destruct d as [|ch d]; [done|]. apply IH.
  apply transition_Some in Ht. rewrite Forall_forall in Hdl.
  by apply (Hdl _ Ht).
Qed.

(** X13.  On a well-formed automaton the walk of [process] never leaves
    the declared states: the state it ends in, which decides the verdict,
    is one of them. *)
Theorem process_walk_in_states (a : automaton) (word : string) :
  well_formed a →
  walk (delta a) (initial_state a) (chars word) ∈ states a.
Proof.
  intros (Hinit & _ & Hdelta & _). apply walk_in_states; [done|].
  eapply Forall_impl; [exact Hdelta|]. by intros t (_ & ? & _).
Qed.

(** The theorem at the automaton [eps_nfa] and the word "aa". *)
Lemma process_walk_in_states_witness :
  walk (delta eps_nfa) (initial_state eps_nfa) (chars "aa") ∈ states eps_nfa.
Proof.
  apply (process_walk_in_states eps_nfa "aa"). decide_by_computation.
Defined.

(** * Further properties of the loader *)

Lemma split_from_nonempty tok cs :
  Forall (λ t, t ≠ EmptyString) (split_from tok cs).
Proof.
  revert tok. induction cs as [|c cs IH]; intros tok; simpl.
  - destruct (decide (tok = EmptyString)) as [->|Hne].
    + by rewrite bool_decide_eq_true_2.
    + rewrite bool_decide_eq_false_2 by done. by apply Forall_singleton.
  - destruct (is_space c); [|apply IH].
    destruct (decide (tok = EmptyString)) as [->|Hne].
    + rewrite bool_decide_eq_true_2 by done. apply IH.
    + rewrite bool_decide_eq_false_2 by done. apply Forall_cons. split; [done|].
      apply IH.
Qed.

Lemma load_delta_inr sts alph transitions dl0 dl :
  load_delta sts alph transitions dl0 = inr dl →
  ∃ rules, dl = dl0 ++ rules
    ∧ Forall2 (parsed_rule sts alph) transitions rules.
Proof.
  revert dl0. induction transitions as [|line transitions IH]; intros dl0.
  - simpl. intros [= ->]. exists []. by rewrite app_nil_r.
  - simpl. destruct (split line) as [|o [|s [|d [|x l]]]] eqn:Hsplit;
      try done.
    destruct (bool_decide (o ∉ sts) || bool_decide (d ∉ sts)) eqn:Hst;
      [done|].
    destruct (bool_decide (s ≠ epsilon) && bool_decide (s ∉ alph)) eqn:Hsym;
      [done|].
    intros Hrec. apply IH in Hrec as (rules & -> & Hall).
    exists ((o, s, d) :: rules). split; [by rewrite <- app_assoc|].
    constructor; [|done]. unfold parsed_rule. simpl.
    apply orb_false_iff in Hst as [Ho Hd].
    apply bool_decide_eq_false in Ho, Hd.
    apply dec_stable in Ho, Hd. split_and!; [done..|].
    apply andb_false_iff in Hsym as [Hs|Hs];
      apply bool_decide_eq_false, dec_stable in Hs; auto.
Qed.

Lemma load_automata_inr file_lines a :
  load_automata file_lines = inr a →
  ∃ l0 l1 l2 l3 transitions,
    strip <$> file_lines = l0 :: l1 :: l2 :: l3 :: transitions
    ∧ transitions ≠ []
    ∧ alphabet a = split l0 ∧ states a = split l1
    ∧ final_states a = split l2 ∧ initial_state a = l3
    ∧ Forall2 (parsed_rule (split l1) (split l0)) transitions (delta a)
    ∧ l3 ∈ split l1
    ∧ Forall (λ q, q ∈ split l1) (split l2).
Proof.
  unfold load_automata.
  destruct file_lines as [|r0 [|r1 [|r2 [|r3 [|r4 rest]]]]]; try done.
  cbn [fmap list_fmap].
  set (l0 := strip r0). set (l1 := strip r1). set (l2 := strip r2).
  set (l3 := strip r3). set (ts := strip r4 :: _).
  destruct (existsb _ (split l2)) eqn:Hf; [done|].
  destruct (load_delta (split l1) (split l0) ts []) as [e|dl] eqn:Hld;
    [done|].
  destruct (decide (l3 ∉ split l1)) as [Hi|Hi].
  { by rewrite (bool_decide_eq_true_2 _ Hi). }
  rewrite (bool_decide_eq_false_2 _ Hi). intros [= <-].
  exists l0, l1, l2, l3, ts. cbn [alphabet states final_states
                                   initial_state delta].
  apply load_delta_inr in Hld as (rules & -> & Hall).
  split_and!; [done..| | |].
  - done.
  - by apply dec_stable.
  - apply Forall_forall. intros q Hq.
    destruct (decide (q ∈ split l1)) as [|Hnq]; [done|].
    assert (existsb (λ state, bool_decide (state ∉ split l1)) (split l2)
            = true); [|congruence].
    apply existsb_exists. exists q.
    split; [by apply list_elem_of_In | by apply bool_decide_eq_true].
Qed.

(** X14.  An automaton the loader returns keeps the invariants of the
    model: its initial state and its accepting states are states, and every
    rule goes between states on the empty symbol or a symbol of the
    alphabet.  It is well formed as soon as its alphabet does not hold the
    empty symbol, which the loader does not check. *)
Theorem load_automata_invariants (file_lines : list string) (a : automaton) :
  load_automata file_lines = inr a →
  initial_state a ∈ states a
  ∧ Forall (λ q, q ∈ states a) (final_states a)
  ∧ Forall (λ t : transition_rule,
              t.1.1 ∈ states a ∧ t.2 ∈ states a
              ∧ (t.1.2 = epsilon ∨ t.1.2 ∈ alphabet a)) (delta a)
  ∧ (epsilon ∉ alphabet a → well_formed a).
Proof.
  intros Hload.
  destruct (load_automata_inr _ _ Hload)
    as (l0 & l1 & l2 & l3 & ts & _ & _ & Ha & Hs & Hf & Hi & Hdl & Hin & Hfin).
  assert (Hrules : Forall (λ t : transition_rule,
              t.1.1 ∈ states a ∧ t.2 ∈ states a
              ∧ (t.1.2 = epsilon ∨ t.1.2 ∈ alphabet a)) (delta a)).
  { rewrite Ha, Hs. clear -Hdl.
    induction Hdl as [|line r ts rules (_ & ? & ? & ?) _ IH]; by constructor. }
  rewrite Hi, Hs, Hf. unfold well_formed. rewrite Hi, Hs, Hf.
  rewrite Hs in Hrules. split_and!; done.
Qed.

(** The theorem at the description [two_state_lines]. *)
Lemma load_automata_invariants_witness :
  initial_state two_state_automaton ∈ states two_state_automaton
  ∧ Forall (λ q, q ∈ states two_state_automaton)
           (final_states two_state_automaton)
  ∧ Forall (λ t : transition_rule,
              t.1.1 ∈ states two_state_automaton
              ∧ t.2 ∈ states two_state_automaton
              ∧ (t.1.2 = epsilon ∨ t.1.2 ∈ alphabet two_state_automaton))
           (delta two_state_automaton)
  ∧ (epsilon ∉ alphabet two_state_automaton
     → well_formed two_state_automaton).
Proof.
  apply (load_automata_invariants two_state_lines two_state_automaton).
  vm_compute. reflexivity.
Defined.

(** X15.  The loader returns the tokens of the four header lines as they
    stand, the initial state being the whole stripped fourth line, and one
    rule per transition line, in the order of the lines, made of the three
    tokens of the line. *)
Theorem load_automata_fields (file_lines : list string) (a : automaton) :
  load_automata file_lines = inr a →
  ∃ l0 l1 l2 l3 transitions,
    strip <$> file_lines = l0 :: l1 :: l2 :: l3 :: transitions
    ∧ alphabet a = split l0 ∧ states a = split l1
    ∧ final_states a = split l2 ∧ initial_state a = l3
    ∧ Forall2 (λ line (r : transition_rule),
                 split line = [r.1.1; r.1.2; r.2]) transitions (delta a)
    ∧ length (delta a) = length file_lines - 4.
Proof.
  intros Hload.
  destruct (load_automata_inr _ _ Hload)
    as (l0 & l1 & l2 & l3 & ts & Hl & _ & Ha & Hs & Hf & Hi & Hdl & _).
  exists l0, l1, l2, l3, ts. split_and!; [done..| |].
  - eapply Forall2_impl; [exact Hdl|]. by intros line r (? & _).
  - apply Forall2_length in Hdl. rewrite <- Hdl.
    apply (f_equal length) in Hl. rewrite length_fmap in Hl.
    simpl in Hl. lia.
Qed.

(** The theorem at the description [two_state_lines]. *)
Lemma load_automata_fields_witness :
  ∃ l0 l1 l2 l3 transitions,
    strip <$> two_state_lines = l0 :: l1 :: l2 :: l3 :: transitions
    ∧ alphabet two_state_automaton = split l0
    ∧ states two_state_automaton = split l1
    ∧ final_states two_state_automaton = split l2
    ∧ initial_state two_state_automaton = l3
    ∧ Forall2 (λ line (r : transition_rule),
                 split line = [r.1.1; r.1.2; r.2]) transitions
              (delta two_state_automaton)
    ∧ length (delta two_state_automaton) = length two_state_lines - 4.
Proof.
  apply (load_automata_fields two_state_lines two_state_automaton).
  vm_compute. reflexivity.
Defined.

(** X16.  The order of the checks: too few lines are reported whatever the
    lines hold; a wrong accepting state is reported before any transition
    line is read; a wrong initial state is reported only when everything
    else is right. *)
Theorem load_automata_error_order (file_lines : list string) :
  (load_automata file_lines = inl InsufficientLines ↔ length file_lines < 5)
  ∧ (load_automata file_lines = inl InvalidFinalState
     ↔ ∃ l0 l1 l2 rest,
         strip <$> file_lines = l0 :: l1 :: l2 :: rest ∧ 2 ≤ length rest
         ∧ ∃ q, q ∈ split l2 ∧ q ∉ split l1)
  ∧ (load_automata file_lines = inl InvalidInitialState
     ↔ ∃ l0 l1 l2 l3 transitions,
         strip <$> file_lines = l0 :: l1 :: l2 :: l3 :: transitions
         ∧ transitions ≠ []
         ∧ Forall (λ q, q ∈ split l1) (split l2)
         ∧ (∀ line, line ∈ transitions →
              ¬ bad_rule (split l1) (split l0) line)
         ∧ l3 ∉ split l1).
Proof.
  unfold load_automata.
  destruct file_lines as [|r0 [|r1 [|r2 [|r3 [|r4 rest]]]]];
    try (split_and!;
         [ split; [intros _; simpl; lia | done]
         | split; [done|]; intros (? & ? & ? & ? & Heq & Hlen & _);
           inversion Heq; subst; simpl in Hlen; lia
         | split; [done|]; intros (? & ? & ? & ? & ? & Heq & Hne & _);
           inversion Heq; subst; done ]).
  cbn [fmap list_fmap length].
  set (l0 := strip r0). set (l1 := strip r1). set (l2 := strip r2).
  set (l3 := strip r3). set (ts := strip r4 :: _).
  assert (Hfin : existsb (λ state, bool_decide (state ∉ split l1)) (split l2)
                 = true ↔ ∃ q, q ∈ split l2 ∧ q ∉ split l1).
  { rewrite existsb_exists. split.
    - intros (q & Hin & Hq). exists q. apply bool_decide_eq_true in Hq.
      split; [by apply list_elem_of_In | done].
    - intros (q & Hin & Hq). exists q.
      split; [by apply list_elem_of_In | by apply bool_decide_eq_true]. }
  assert (Hfin' : existsb (λ state, bool_decide (state ∉ split l1)) (split l2)
                  = false ↔ Forall (λ q, q ∈ split l1) (split l2)).
  { rewrite <- not_true_iff_false, Hfin, Forall_forall. split.
    - intros Hno q Hq. destruct (decide (q ∈ split l1)); [done|].
      destruct Hno. by exists q.
    - intros Hall (q & Hq & Hn). by apply Hn, Hall. }
  pose proof (load_delta_fails (split l1) (split l0) ts []) as Hdl.
  assert (Hcases :
    match load_delta (split l1) (split l0) ts [] with
    | inl e => e ≠ InvalidFinalState ∧ e ≠ InvalidInitialState
               ∧ e ≠ InsufficientLines
    | inr _ => True
    end).
  { clear. generalize (@nil transition_rule) as dl0.
    induction ts as [|line ts' IH]; intros dl0; simpl; [done|].
    destruct (split line) as [|o [|s [|d [|x l]]]]; try done.
    destruct (_ || _); [done|]. destruct (_ && _); [done|]. apply IH. }
  split_and!.
  - split; [|simpl; lia].
    destruct (existsb _ (split l2)); [done|].
    destruct (load_delta (split l1) (split l0) ts []) as [e|dl].
    + destruct Hcases as (_ & _ & ?). by intros [= ->].
    + by destruct (bool_decide _).
  - split.
    + intros Hres. exists l0, l1, l2, (l3 :: ts).
      split_and!; [done | simpl; lia |]. apply Hfin. revert Hres.
      destruct (existsb _ (split l2)); [done|].
      destruct (load_delta (split l1) (split l0) ts []) as [e|dl].
      * destruct Hcases as (? & _). by intros [= ->].
      * by destruct (bool_decide _).
    + intros (m0 & m1 & m2 & ms & Heq & _ & Hq).
      inversion Heq; subst m0 m1 m2 ms. apply Hfin in Hq. by rewrite Hq.
  - split.
    + intros Hres. exists l0, l1, l2, l3, ts. split_and!; [done..| | |];
        revert Hres.
      * destruct (existsb _ (split l2)) eqn:Hf; [done|]. intros _.
        by apply Hfin'.
      * destruct (existsb _ (split l2)); [done|].
        destruct (load_delta (split l1) (split l0) ts []) as [e|dl] eqn:Hld.
        -- destruct Hcases as (_ & ? & _). by intros [= ->].
        -- intros _ line Hin Hbad.
           assert (∃ e, @inr load_error _ dl = inl e) as [e ?]; [|done].
           apply Hdl. by exists line.
      * destruct (existsb _ (split l2)); [done|].
        destruct (load_delta (split l1) (split l0) ts []) as [e|dl].
        -- destruct Hcases as (_ & ? & _). by intros [= ->].
        -- destruct (decide (l3 ∉ split l1)) as [Hi|Hi]; [done|].
           by rewrite (bool_decide_eq_false_2 _ Hi).
    + intros (m0 & m1 & m2 & m3 & ms & Heq & _ & Hall & Hgood & Hi).
      inversion Heq; subst m0 m1 m2 m3 ms.
      apply Hfin' in Hall. rewrite Hall.
      destruct (load_delta (split l1) (split l0) ts []) as [e|dl] eqn:Hld.
      * assert (∃ line, line ∈ ts ∧ bad_rule (split l1) (split l0) line)
          as (line & Hin & Hbad) by (apply Hdl; by exists e).
        by destruct (Hgood line Hin).
      * by rewrite (bool_decide_eq_true_2 _ Hi).
Qed.

(** X17.  On an automaton the loader returns, no state has the empty name,
    so [process] gives every word over the alphabet the verdict of the
    first-match walk. *)
Theorem load_then_process_first_match (file_lines : list string)
    (a : automaton) (words : list string) (word : string) :
  load_automata file_lines = inr a →
  word ∈ words → is_valid_word (alphabet a) word = true →
  process a words !! word = Some (first_match_verdict a word).
Proof.
  intros Hload Hin Hvalid.
  rewrite process_lookup, decide_True by done. f_equal.
  apply classify_first_match; [|done].
  destruct (load_automata_inr _ _ Hload)
    as (l0 & l1 & l2 & l3 & ts & _ & _ & _ & _ & _ & _ & Hdl & _).
  intros t Ht Hempty.
  apply list_elem_of_lookup in Ht as [i Hi].
  destruct (Forall2_lookup_r _ _ _ _ _ Hdl Hi) as (line & _ & _ & _ & Hd & _).
  pose proof (split_from_nonempty EmptyString (chars l1)) as Hne.
  rewrite Forall_forall in Hne. by apply (Hne _ Hd).
Qed.

(** The theorem at the description [two_state_lines] and the word "ab". *)
Lemma load_then_process_first_match_witness :
  process two_state_automaton ["ab"; "c"] !! "ab"
  = Some (first_match_verdict two_state_automaton "ab").
Proof.
  apply (load_then_process_first_match two_state_lines).
  - vm_compute. reflexivity.
  - decide_by_computation.
  - reflexivity.
Defined.

(** * Further properties of the conversion *)

Lemma convert_to_dfa_explore a :
  ∃ visited nd,
    convert_explore a = Some (start_set a, visited, nd)
    ∧ convert_to_dfa a
      = Some (Automaton (state_to_str <$> visited) (alphabet a) nd
                (state_to_str (start_set a))
                (state_to_str
                   <$> filter (λ state_set,
                                 has_final (final_states a) state_set)
                              visited))
    ∧ start_set a ∈ visited
    ∧ (∀ V, V ∈ visited → expanded (delta a) (alphabet a) visited nd V)
    ∧ (∀ e, e ∈ nd → edge_ok (delta a) (alphabet a) visited e)
    ∧ (∀ V, V ∈ visited → V ≠ ∅ ∧ V ⊆ universe a).
Proof.
  destruct (convert_explore_spec a) as (visited & nd & Hex & Hrest).
  exists visited, nd. split; [done|]. split; [|done].
  unfold convert_to_dfa. by rewrite Hex.
Qed.

(** X18.  When the alphabet does not hold the empty symbol, the converted
    automaton is well formed: its initial state and accepting states are
    among its states, and its rules go between its states on symbols of the
    alphabet. *)
Theorem convert_to_dfa_well_formed (a : automaton) :
  epsilon ∉ alphabet a →
  ∃ dfa, convert_to_dfa a = Some dfa ∧ well_formed dfa.
Proof.
  intros Heps.
  destruct (convert_to_dfa_explore a)
    as (visited & nd & _ & Hconv & Hstart & Hexp & Hedge & _).
  eexists. split; [exact Hconv|]. unfold well_formed.
  cbn [states alphabet delta initial_state final_states]. split_and!.
  - by apply list_elem_of_fmap_2.
  - apply Forall_forall. intros name Hname.
    apply list_elem_of_fmap in Hname as (V & -> & HV).
    apply list_elem_of_filter in HV as [_ HV]. by apply list_elem_of_fmap_2.
  - apply Forall_forall. intros e He.
    destruct (Hedge e He) as (V & symbol & HV & Hs & Hne & ->). simpl.
    destruct (Hexp V HV symbol Hs Hne) as [Hin _].
    split_and!; [by apply list_elem_of_fmap_2.. | by right].
  - done.
Qed.

(** The theorem at the automaton [eps_nfa]. *)
Lemma convert_to_dfa_well_formed_witness :
  ∃ dfa, convert_to_dfa eps_nfa = Some dfa ∧ well_formed dfa.
Proof.
  apply (convert_to_dfa_well_formed eps_nfa). decide_by_computation.
Defined.

(** X19.  For a well-formed automaton with non-empty, comma-free state
    names the converted automaton is deterministic, and none of its rules
    is an empty move. *)
Theorem convert_to_dfa_deterministic (a : automaton) :
  well_formed a → plain_names (states a) →
  ∃ dfa, convert_to_dfa a = Some dfa
    ∧ deterministic (delta dfa)
    ∧ Forall (λ t : transition_rule,
                t.1.2 ∈ alphabet a ∧ t.1.2 ≠ epsilon) (delta dfa).
Proof.
  intros Hwf Hnames.
  pose proof (well_formed_universe a Hwf Hnames) as Hplain.
  destruct Hwf as (_ & _ & _ & Heps).
  destruct (convert_to_dfa_explore a)
    as (visited & nd & _ & Hconv & Hstart & Hexp & Hedge & Hgood).
  eexists. split; [exact Hconv|]. cbn [delta]. split.
  - unfold deterministic. apply Forall_forall. intros e He.
    apply Forall_forall. intros e' He' Heq.
    destruct (Hedge e He) as (V & s & HV & Hs & Hne & ->).
    destruct (Hedge e' He') as (V' & s' & HV' & Hs' & Hne' & ->).
    simpl in *. inversion Heq as [[Hname Hsym]]. subst s'.
    apply (visited_name_inj a visited Hplain Hgood) in Hname; [|done..].
    by subst V'.
  - apply Forall_forall. intros e He.
    destruct (Hedge e He) as (V & s & HV & Hs & Hne & ->). simpl.
    split; [done|]. by intros ->.
Qed.

(** The theorem at the automaton [eps_nfa]. *)
Lemma convert_to_dfa_deterministic_witness :
  ∃ dfa, convert_to_dfa eps_nfa = Some dfa
    ∧ deterministic (delta dfa)
    ∧ Forall (λ t : transition_rule,
                t.1.2 ∈ alphabet eps_nfa ∧ t.1.2 ≠ epsilon) (delta dfa).
Proof.
  apply (convert_to_dfa_deterministic eps_nfa); decide_by_computation.
Defined.

(** X20.  Under the same conditions the rules of the converted automaton
    are the moves of the subset construction: from the name of a visited
    set, on a symbol of the alphabet, [transition] finds the name of the
    successor set, and nothing when the successor set is empty. *)
Theorem convert_to_dfa_transition (a : automaton) :
  well_formed a → plain_names (states a) →
  ∃ start visited new_delta dfa,
    convert_explore a = Some (start, visited, new_delta)
    ∧ convert_to_dfa a = Some dfa
    ∧ ∀ V symbol, V ∈ visited → symbol ∈ alphabet a →
        transition (delta dfa) (state_to_str V) symbol
        = if decide (next_set (delta a) V symbol = ∅) then None
          else Some (state_to_str (next_set (delta a) V symbol)).
Proof.
  intros Hwf Hnames.
  pose proof (well_formed_universe a Hwf Hnames) as Hplain.
  destruct (convert_to_dfa_explore a)
    as (visited & nd & Hex & Hconv & Hstart & Hexp & Hedge & Hgood).
  exists (start_set a), visited, nd. eexists.
  split; [done|]. split; [exact Hconv|]. cbn [delta].
  intros V symbol HV Hs. by apply (transition_dfa a visited nd).
Qed.

(** The theorem at the automaton [eps_nfa]. *)
Lemma convert_to_dfa_transition_witness :
  ∃ start visited new_delta dfa,
    convert_explore eps_nfa = Some (start, visited, new_delta)
    ∧ convert_to_dfa eps_nfa = Some dfa
    ∧ ∀ V symbol, V ∈ visited → symbol ∈ alphabet eps_nfa →
        transition (delta dfa) (state_to_str V) symbol
        = if decide (next_set (delta eps_nfa) V symbol = ∅) then None
          else Some (state_to_str (next_set (delta eps_nfa) V symbol)).
Proof.
  apply (convert_to_dfa_transition eps_nfa); decide_by_computation.
Defined.

(** A property of sets that holds at the start of the main loop and is
    kept by the successor sets holds for every visited set. *)
Lemma convert_loop_forall (P : gset string → Prop) dl alph fuel
    queue visited nd visited' nd' :
  (∀ V symbol, P V → symbol ∈ alph → next_set dl V symbol ≠ ∅ →
     P (next_set dl V symbol)) →
  convert_loop fuel dl alph (queue, visited, nd) = Some (visited', nd') →
  (∀ V, V ∈ visited ++ queue → P V) →
  ∀ V, V ∈ visited' → P V.
Proof.
  intros Hstep. revert queue visited nd.
  induction fuel as [|fuel IH]; intros queue visited nd Hrun Hall; [done|].
  destruct queue as [|current rest].
  - simpl in Hrun. inversion Hrun; subst. by rewrite app_nil_r in Hall.
  - cbn [convert_loop] in Hrun.
    destruct (expand_symbols_spec dl current alph rest
                (visited ++ [current]) nd)
      as (news & Heq & _ & Hnew & _).
    rewrite Heq in Hrun. cbn [mbind option_bind] in Hrun.
    eapply IH; [exact Hrun|]. intros V HV.
    rewrite !elem_of_app, list_elem_of_singleton, elem_of_reverse in HV.
    assert (Hcur : P current).
    { apply Hall. apply elem_of_app. right. apply list_elem_of_here. }
    assert (Hn : V ∈ news → P V).
    { intros Hin. destruct (Hnew V Hin) as (_ & Hne & s & Hs & ->).
      by apply Hstep. }
    destruct HV as [[[HV| ->]|HV]|[HV|HV]]; auto.
    + apply Hall. apply elem_of_app. by left.
    + apply Hall. apply elem_of_app. right. by apply list_elem_of_further.
Qed.

Lemma reach_set_snoc dl sts w c :
  reach_set dl sts (w ++ [c]) = next_set dl (reach_set dl sts w) c.
Proof. by rewrite reach_set_app. Qed.

Lemma next_set_empty dl c : next_set dl ∅ c = ∅.
Proof. apply (reach_set_empty dl [c]). Qed.

Lemma convert_visited_reachable a :
  ∃ visited nd,
    convert_explore a = Some (start_set a, visited, nd)
    ∧ ∀ V, V ∈ visited
        ↔ V ≠ ∅ ∧ ∃ w, Forall (λ c, c ∈ alphabet a) w
                    ∧ V = reach_set (delta a) (start_set a) w.
Proof.
  destruct (convert_explore_spec a)
    as (visited & nd & Hex & Hstart & Hexp & _ & Hgood).
  exists visited, nd. split; [done|]. intros V. split.
  - intros HV. split; [by apply Hgood|].
    unfold convert_explore in Hex. rewrite epsilon_closure_eclose in Hex.
    cbn [mbind option_bind] in Hex. fold (start_set a) in Hex.
    destruct (convert_loop _ _ _ _) as [[visited0 nd0]|] eqn:Hrun; [|done].
    inversion Hex; subst visited0 nd0.
    eapply (convert_loop_forall
              (λ V, ∃ w, Forall (λ c, c ∈ alphabet a) w
                         ∧ V = reach_set (delta a) (start_set a) w));
      [| exact Hrun | | exact HV].
    + intros W symbol (w & Hw & ->) Hs _. exists (w ++ [symbol]). split.
      * apply Forall_app. split; [done | by apply Forall_singleton].
      * by rewrite reach_set_snoc.
    + intros W HW. apply list_elem_of_singleton in HW. subst W.
      by exists [].
  - intros (Hne & w & Hw & ->). revert Hw Hne.
    induction w as [|c w IH] using rev_ind; intros Hw Hne; [done|].
    apply Forall_app in Hw as [Hw Hc]. rewrite Forall_singleton in Hc.
    rewrite reach_set_snoc in *.
    assert (Hprev : reach_set (delta a) (start_set a) w ≠ ∅).
    { intros Hempty. rewrite Hempty, next_set_empty in Hne. done. }
    by destruct (Hexp _ (IH Hw Hprev) c Hc Hne).
Qed.

(** X21.  The sets the conversion visits are exactly the non-empty sets
    that the subset construction reaches from the closure of the initial
    state on some word over the alphabet. *)
Theorem convert_visits_reachable_sets (a : automaton) :
  ∃ start visited new_delta,
    epsilon_closure (delta a) {[initial_state a]} = Some start
    ∧ convert_explore a = Some (start, visited, new_delta)
    ∧ ∀ V, V ∈ visited
        ↔ V ≠ ∅ ∧ ∃ w, Forall (λ c, c ∈ alphabet a) w
                    ∧ V = reach_set (delta a) start w.
Proof.
  destruct (convert_visited_reachable a) as (visited & nd & Hex & Hiff).
  exists (start_set a), visited, nd.
  split; [apply epsilon_closure_eclose | done].
Qed.

(** X22.  When the alphabet does not hold the empty symbol, the visited
    sets are exactly the non-empty sets of states in which the runs of the
    automaton on some word over the alphabet end. *)
Theorem convert_visits_run_sets (a : automaton) :
  epsilon ∉ alphabet a →
  ∃ start visited new_delta,
    convert_explore a = Some (start, visited, new_delta)
    ∧ ∀ V, V ∈ visited
        ↔ V ≠ ∅ ∧ ∃ w, Forall (λ c, c ∈ alphabet a) w
                    ∧ ∀ q, q ∈ V
                        ↔ nfa_run (delta a) (initial_state a) w q.
Proof.
  intros Heps.
  destruct (convert_visited_reachable a) as (visited & nd & Hex & Hiff).
  exists (start_set a), visited, nd. split; [done|].
  intros V. rewrite Hiff. split.
  - intros (Hne & w & Hw & ->). split; [done|]. exists w. split; [done|].
    intros q. apply elem_of_reach_start. by eapply valid_symbols_not_epsilon.
  - intros (Hne & w & Hw & Hq). split; [done|]. exists w. split; [done|].
    apply set_eq. intros q. rewrite Hq. symmetry.
    apply elem_of_reach_start. by eapply valid_symbols_not_epsilon.
Qed.

(** The theorem at the automaton [eps_nfa]. *)
Lemma convert_visits_run_sets_witness :
  ∃ start visited new_delta,
    convert_explore eps_nfa = Some (start, visited, new_delta)
    ∧ ∀ V, V ∈ visited
        ↔ V ≠ ∅ ∧ ∃ w, Forall (λ c, c ∈ alphabet eps_nfa) w
                    ∧ ∀ q, q ∈ V
                        ↔ nfa_run (delta eps_nfa) (initial_state eps_nfa) w q.
Proof.
  apply (convert_visits_run_sets eps_nfa). decide_by_computation.
Defined.

(** X23.  The empty set is named by the empty string, and a one-state set
    by the name of its state. *)
Theorem state_to_str_small (q : string) :
  state_to_str ∅ = EmptyString ∧ state_to_str {[q]} = q.
Proof.
  split; [reflexivity|].
  unfold state_to_str, state_to_str_from. by rewrite elements_singleton.
Qed.

Lemma reach_set_eps_closed dl sts w :
  eps_closed dl sts → eps_closed dl (reach_set dl sts w).
Proof.
  revert sts. induction w as [|c w IH]; intros sts Hcl; simpl; [done|].
  apply IH, next_set_eps_closed.
Qed.

(** X24.  Every set the conversion visits is closed under the empty moves
    of the automaton. *)
Theorem convert_visits_closed_sets (a : automaton) :
  ∃ start visited new_delta,
    convert_explore a = Some (start, visited, new_delta)
    ∧ ∀ V p q, V ∈ visited → p ∈ V → (p, epsilon, q) ∈ delta a → q ∈ V.
Proof.
  destruct (convert_visited_reachable a) as (visited & nd & Hex & Hiff).
  exists (start_set a), visited, nd. split; [done|].
  intros V p q HV Hp Hstep. apply Hiff in HV as (_ & w & _ & ->).
  eapply (reach_set_eps_closed (delta a) (start_set a) w);
    [apply eclose_eps_closed | exact Hp | exact Hstep].
Qed.
